(** * Cam backend: authentication gate and per-user video store

    Shallow embedding of [backend/server.py].  The FastAPI handlers are
    functions in a small state/error/log monad over the two MongoDB
    collections; everything the handlers read from their environment
    (the clock, [uuid.uuid4], the driver's [ObjectId], the bcrypt salt) is
    an explicit argument.  The store is ideal: a call to it always returns,
    and a document may be of any size. *)

From Stdlib Require Import ZArith String Ascii List Lia Floats.
From stdpp Require Import base decidable option list strings pretty gmap.

Local Open Scope string_scope.
Local Open Scope Z_scope.
Local Open Scope list_scope.

(** ** Time: [datetime] and [timedelta]

    A naive UTC [datetime] is its number of microseconds since the epoch, a
    [timedelta] a number of microseconds. *)

Abbreviation datetime := Z (only parsing).
Abbreviation timedelta := Z (only parsing).

Definition timedelta_minutes (minutes : Z) : timedelta := minutes * 60 * 1000000.

(** [calendar.timegm(d.utctimetuple())]: whole seconds since the epoch; the
    time tuple has no microsecond field. *)
Definition timegm (d : datetime) : Z := d `div` 1000000.

(** ** HTTP outcomes *)

Record HTTPException := {
  status_code : Z;
  detail : string;
  headers : list (string * string)
}.

(** An exception that is not an [HTTPException] and that nothing catches
    leaves the handler, and the framework answers it with status 500.  It
    is recorded as that response. *)
Definition internal_server_error : HTTPException :=
  {| status_code := 500; detail := "Internal Server Error"; headers := [] |}.

(** FastAPI answers 200 when a handler returns a value that its JSON
    encoder accepts (the encoder refuses a value holding a NaN or an
    infinite float), and the exception's status when the handler raises. *)
Definition response_status {A} (r : HTTPException + A) : Z :=
  match r with
  | inl e => status_code e
  | inr _ => 200
  end.

(** ** Models (the pydantic classes) *)

Module User.
Record t := {
  id : string;
  email : string;
  phone : option string;
  hashed_password : string;
  created_at : datetime
}.
End User.

Module VideoRecord.
Record t := {
  id : string;
  user_id : string;
  video_data : string;
  location_lat : option float;
  location_lng : option float;
  phone_number : option string;
  timestamp : datetime
}.
End VideoRecord.

Module UserCreate.
Record t := {
  email : string;
  password : string;
  phone : option string
}.
End UserCreate.

Module UserLogin.
Record t := {
  email : string;
  password : string
}.
End UserLogin.

Module VideoUpload.
Record t := {
  video_data : string;
  location_lat : option float;
  location_lng : option float;
  phone_number : option string
}.
End VideoUpload.

(** The dictionaries the video routes answer with. *)
Module Uploaded.
Record t := { message : string; video_id : string }.
End Uploaded.

Module Deleted.
Record t := { message : string }.
End Deleted.

(** The dictionary each element of the [/videos] listing is built from. *)
Module VideoSummary.
Record t := {
  id : string;
  timestamp : datetime;
  location_lat : option float;
  location_lng : option float;
  phone_number : option string
}.
End VideoSummary.

(** ** The document store

    A collection is the list of its documents in insertion order.  The driver
    adds an [_id] to every inserted document. *)

Abbreviation ObjectId := N (only parsing).

Record Stored (A : Type) := { _id : ObjectId; doc : A }.
Arguments _id {A} _.
Arguments doc {A} _.
Arguments Build_Stored {A} _ _.

Record DB := {
  users : list (Stored User.t);
  videos : list (Stored VideoRecord.t)
}.

Section Collection.
Context {A : Type} (P : A → Prop) `{!∀ x, Decision (P x)}.

(** [find(query)]: the matching documents, in collection order. *)
Definition find (coll : list A) : list A := filter P coll.

(** [find_one(query)]: the first matching document, or [None]. *)
Definition find_one (coll : list A) : option A := head (filter P coll).

(** [delete_one(query)]: drops the first matching document; the second
    component is [deleted_count]. *)
Fixpoint delete_one (coll : list A) : list A * Z :=
  match coll with
  | [] => ([], 0)
  | x :: rest =>
      if decide (P x) then (rest, 1)
      else let '(rest', n) := delete_one rest in (x :: rest', n)
  end.
End Collection.

Definition insert_one {A} (oid : ObjectId) (d : A) (coll : list (Stored A))
  : list (Stored A) :=
  coll ++ [Build_Stored oid d].

(** [cursor.to_list(length)] *)
Definition to_list {A} (length : nat) (cursor : list A) : list A :=
  take length cursor.

(** The queries the handlers build. *)
Definition by_email (email : string) (u : Stored User.t) : Prop :=
  User.email (doc u) = email.
Definition by_user_id (user_id : string) (v : Stored VideoRecord.t) : Prop :=
  VideoRecord.user_id (doc v) = user_id.
Definition by_id_and_user_id (id user_id : string) (v : Stored VideoRecord.t)
  : Prop :=
  VideoRecord.id (doc v) = id ∧ VideoRecord.user_id (doc v) = user_id.

#[global] Instance by_email_dec e u : Decision (by_email e u).
Proof. unfold by_email. apply _. Defined.
#[global] Instance by_user_id_dec i v : Decision (by_user_id i v).
Proof. unfold by_user_id. apply _. Defined.
#[global] Instance by_id_and_user_id_dec i j v :
  Decision (by_id_and_user_id i j v).
Proof. unfold by_id_and_user_id. apply _. Defined.

(** ** Handlers run against the store

    A handler takes the store and gives back its outcome (a value, or the
    [HTTPException] it raised, or [internal_server_error] for any other
    exception), the store it leaves and the store calls it made, in
    order. *)

Inductive DbCall :=
  | users_find_one (email : string)
  | users_insert_one (u : User.t)
  | videos_insert_one (v : VideoRecord.t)
  | videos_find (user_id : string)
  | videos_find_one (id user_id : string)
  | videos_delete_one (id user_id : string).

Record Run (A : Type) := {
  outcome : HTTPException + A;
  db_after : DB;
  calls : list DbCall
}.
Arguments outcome {A} _.
Arguments db_after {A} _.
Arguments calls {A} _.
Arguments Build_Run {A} _ _ _.

Definition Handler (A : Type) : Type := DB → Run A.

Definition ret {A} (a : A) : Handler A :=
  λ db, {| outcome := inr a; db_after := db; calls := [] |}.

Definition raise {A} (e : HTTPException) : Handler A :=
  λ db, {| outcome := inl e; db_after := db; calls := [] |}.

Definition bind {A B} (m : Handler A) (k : A → Handler B) : Handler B :=
  λ db,
    let r := m db in
    match outcome r with
    | inl e => {| outcome := inl e; db_after := db_after r; calls := calls r |}
    | inr a =>
        let r' := k a (db_after r) in
        {| outcome := outcome r';
           db_after := db_after r';
           calls := calls r ++ calls r' |}
    end.

Notation "x <- m ;; k" := (bind m (λ x, k))
  (at level 100, m at next level, right associativity).

(** [await db.<collection>.<operation>(...)] *)
Definition db_users_find_one (email : string)
  : Handler (option (Stored User.t)) :=
  λ db, {| outcome := inr (find_one (by_email email) (users db));
           db_after := db;
           calls := [users_find_one email] |}.

Definition db_users_insert_one (oid : ObjectId) (u : User.t) : Handler unit :=
  λ db, {| outcome := inr tt;
           db_after := {| users := insert_one oid u (users db);
                          videos := videos db |};
           calls := [users_insert_one u] |}.

Definition db_videos_insert_one (oid : ObjectId) (v : VideoRecord.t)
  : Handler unit :=
  λ db, {| outcome := inr tt;
           db_after := {| users := users db;
                          videos := insert_one oid v (videos db) |};
           calls := [videos_insert_one v] |}.

Definition db_videos_find (user_id : string)
  : Handler (list (Stored VideoRecord.t)) :=
  λ db, {| outcome := inr (find (by_user_id user_id) (videos db));
           db_after := db;
           calls := [videos_find user_id] |}.

Definition db_videos_find_one (id user_id : string)
  : Handler (option (Stored VideoRecord.t)) :=
  λ db, {| outcome := inr (find_one (by_id_and_user_id id user_id) (videos db));
           db_after := db;
           calls := [videos_find_one id user_id] |}.

(** The value is [result.deleted_count]. *)
Definition db_videos_delete_one (id user_id : string) : Handler Z :=
  λ db,
    let '(rest, n) := delete_one (by_id_and_user_id id user_id) (videos db) in
    {| outcome := inr n;
       db_after := {| users := users db; videos := rest |};
       calls := [videos_delete_one id user_id] |}.

(** ** External libraries: passlib, python-jose and FastAPI

    [pwd_context.hash] draws a salt and derives the stored blob;
    [pwd_context.verify] re-derives and compares.  Both first validate the
    secret and raise when they refuse it (passlib's bcrypt refuses a
    secret with a NUL byte); [verify] also raises on a blob it cannot
    identify.  [jwt.encode] signs the header and claim set with
    HMAC-SHA256.  The handlers are verified for every choice of these
    functions. *)

(** The claim set of a token, as the program writes and reads it: the
    subject and the expiry, either of which may be missing.  In the Python
    dictionary handed to [jwt.encode] the expiry is a [datetime]; in the
    encoded payload it is a number of whole seconds. *)
Record Claims := {
  sub : option string;
  exp : option Z
}.

Class Crypto := {
  (** the blob made of an accepted secret *)
  bcrypt_hash : string → string → string;
  (** whether an accepted secret matches an identified blob *)
  bcrypt_check : string → string → bool;
  (** the secrets that [hash] and [verify] refuse *)
  secret_refused : string → bool;
  (** the blobs that [verify] cannot identify *)
  hash_unknown : string → bool;
  hmac_sha256 : string → string * Claims → string
}.

(** What [pwd_context.verify] gives: a boolean, or an exception. *)
Inductive Verdict :=
  | Verified (b : bool)
  | VerifyRaises.

Coercion Verified : bool >-> Verdict.

(** [pwd_context.verify(secret, blob)] *)
Definition bcrypt_verify `{Crypto} (secret blob : string) : Verdict :=
  if hash_unknown blob || secret_refused secret then VerifyRaises
  else Verified (bcrypt_check secret blob).

(** [HTTPBearer] of FastAPI builds the exception it raises for a request
    without usable credentials, and the one for a scheme other than Bearer,
    differently from release to release: older releases raise 403, current
    ones 401 with a WWW-Authenticate header.  The repository pins no
    release, so the two exceptions are parameters. *)
Class FastAPI := {
  not_authenticated_error : HTTPException;
  invalid_scheme_error : HTTPException;
  not_authenticated_status :
    status_code not_authenticated_error = 401
    ∨ status_code not_authenticated_error = 403;
  invalid_scheme_status :
    status_code invalid_scheme_error = 401
    ∨ status_code invalid_scheme_error = 403
}.

(** A bearer token as [jwt.decode] parses it: either a compact JWS with a
    header algorithm, a claim set and a signature, or a string that is not
    one (wrong number of segments, undecodable segment, payload that is
    not a JSON object with a string subject and a numeric expiry). *)
Inductive EncodedJWT :=
  | Malformed (raw : string)
  | JWS (alg : string) (payload : Claims) (signature : string).

Inductive JWTError :=
  | JWSError (msg : string)
  | ExpiredSignatureError.

Section Server.
Context `{Crypto} `{FastAPI}.

(** *** Configuration *)
Definition SECRET_KEY : string := "your-secret-key-change-in-production".
Definition ALGORITHM : string := "HS256".
Definition ACCESS_TOKEN_EXPIRE_MINUTES : Z := 30.

(** *** [jose.jwt] *)

(** [jwt.encode(claims, key, algorithm)]: a [datetime] under ["exp"] is
    replaced by [timegm] of its time tuple before signing. *)
Definition jwt_encode (claims : Claims) (key algorithm : string) : EncodedJWT :=
  let payload := {| sub := sub claims; exp := timegm <$> exp claims |} in
  JWS algorithm payload (hmac_sha256 key (algorithm, payload)).

(** [jwt.decode(token, key, algorithms)] at clock reading [utcnow].
    python-jose checks, in this order: the token parses, the header
    algorithm is among [algorithms], the signature matches, and, when the
    payload has an ["exp"], that it is not in the past.  Its expiry test
    is [exp < timegm(utcnow) - leeway] with [leeway = 0]: both sides are
    whole seconds and the comparison is strict. *)
Definition jwt_decode (token : EncodedJWT) (key : string)
    (algorithms : list string) (utcnow : datetime) : JWTError + Claims :=
  match token with
  | Malformed _ => inl (JWSError "Not enough segments")
  | JWS alg payload signature =>
      if decide (alg ∈ algorithms) then
        if decide (signature = hmac_sha256 key (alg, payload)) then
          match exp payload with
          | Some e =>
              if (e <? timegm utcnow)%Z then inl ExpiredSignatureError
              else inr payload
          | None => inr payload
          end
        else inl (JWSError "Signature verification failed.")
      else inl (JWSError "The specified alg value is not allowed")
  end.

(** *** Auth utility functions *)

Definition verify_password (plain_password hashed_password : string)
  : Verdict :=
  bcrypt_verify plain_password hashed_password.

(** [None] when [pwd_context.hash] raises. *)
Definition get_password_hash (salt password : string) : option string :=
  if secret_refused password then None
  else Some (bcrypt_hash salt password).

(** [if expires_delta:] is false for [None] and for a zero [timedelta].
    The sum is taken to be a [datetime], which it is for the clock and the
    30 minutes of the routes; out of the years 1 to 9999 Python raises
    [OverflowError] instead. *)
Definition create_access_token (data : Claims)
    (expires_delta : option timedelta) (utcnow : datetime) : EncodedJWT :=
  let to_encode := data in
  let expire :=
    match expires_delta with
    | Some delta =>
        if bool_decide (delta ≠ 0) then utcnow + delta
        else utcnow + timedelta_minutes 15
    | None => utcnow + timedelta_minutes 15
    end in
  let to_encode := {| sub := sub to_encode; exp := Some expire |} in
  jwt_encode to_encode SECRET_KEY ALGORITHM.

Definition credentials_exception : HTTPException :=
  {| status_code := 401;
     detail := "Could not validate credentials";
     headers := [("WWW-Authenticate", "Bearer")] |}.

Record HTTPAuthorizationCredentials := {
  scheme : string;
  credentials : EncodedJWT
}.

(** The [HTTPException] raised inside the [try] is not a [JWTError]: it
    leaves the block as it is, and the [except] clause raises the same
    exception. *)
Definition get_current_user (creds : HTTPAuthorizationCredentials)
    (utcnow : datetime) : Handler (Stored User.t) :=
  let token := credentials creds in
  match jwt_decode token SECRET_KEY [ALGORITHM] utcnow with
  | inl _ => raise credentials_exception
  | inr payload =>
      match sub payload with
      | None => raise credentials_exception
      | Some email =>
          user <- db_users_find_one email ;;
          match user with
          | None => raise credentials_exception
          | Some user => ret user
          end
      end
  end.

(** *** [fastapi.security.HTTPBearer]

    The [Authorization] header, split at its first space into scheme and
    parameter.  With [auto_error] left at its default the dependency
    raises by itself, before [get_current_user] runs. *)
Record Authorization := {
  auth_scheme : string;
  auth_param : option EncodedJWT
}.

Definition lower_ascii (c : ascii) : ascii :=
  let n := N_of_ascii c in
  if ((65 <=? n) && (n <=? 90))%N then ascii_of_N (n + 32) else c.

Fixpoint lower (s : string) : string :=
  match s with
  | EmptyString => EmptyString
  | String c rest => String (lower_ascii c) (lower rest)
  end.

Definition security (authorization : option Authorization)
  : Handler HTTPAuthorizationCredentials :=
  match authorization with
  | Some {| auth_scheme := s; auth_param := Some param |} =>
      if bool_decide (s = "") then raise not_authenticated_error
      else if bool_decide (lower s ≠ "bearer") then raise invalid_scheme_error
      else ret {| scheme := s; credentials := param |}
  | _ => raise not_authenticated_error
  end.

(** [Depends(get_current_user)], itself depending on [security]: the
    authentication gate of every protected route. *)
Definition authenticate (authorization : option Authorization)
    (utcnow : datetime) : Handler (Stored User.t) :=
  creds <- security authorization ;;
  get_current_user creds utcnow.

(** *** Authentication routes *)

Record Token := {
  access_token : EncodedJWT;
  token_type : string
}.

(** [uuid4] and [created_at] are the defaults of the [User] model, [oid]
    the [_id] the driver assigns, [issued_at] the clock reading inside
    [create_access_token]. *)
Definition register (user : UserCreate.t) (salt uuid4 : string)
    (created_at : datetime) (oid : ObjectId) (issued_at : datetime)
  : Handler Token :=
  existing_user <- db_users_find_one (UserCreate.email user) ;;
  match existing_user with
  | Some _ =>
      raise {| status_code := 400; detail := "Email already registered";
               headers := [] |}
  | None =>
      match get_password_hash salt (UserCreate.password user) with
      | None => raise internal_server_error
      | Some hashed_password =>
          let user_obj :=
            {| User.id := uuid4;
               User.email := UserCreate.email user;
               User.phone := UserCreate.phone user;
               User.hashed_password := hashed_password;
               User.created_at := created_at |} in
          _ <- db_users_insert_one oid user_obj ;;
          let access_token_expires :=
            timedelta_minutes ACCESS_TOKEN_EXPIRE_MINUTES in
          let access_token :=
            create_access_token
              {| sub := Some (UserCreate.email user); exp := None |}
              (Some access_token_expires) issued_at in
          ret {| access_token := access_token; token_type := "bearer" |}
      end
  end.

Definition invalid_credentials : HTTPException :=
  {| status_code := 401;
     detail := "Incorrect email or password";
     headers := [("WWW-Authenticate", "Bearer")] |}.

Definition login (user : UserLogin.t) (issued_at : datetime)
  : Handler Token :=
  db_user <- db_users_find_one (UserLogin.email user) ;;
  match db_user with
  | None => raise invalid_credentials
  | Some db_user =>
      match verify_password (UserLogin.password user)
              (User.hashed_password (doc db_user)) with
      | VerifyRaises => raise internal_server_error
      | Verified verified =>
          if negb verified then raise invalid_credentials
          else
            let access_token_expires :=
              timedelta_minutes ACCESS_TOKEN_EXPIRE_MINUTES in
            let access_token :=
              create_access_token
                {| sub := Some (UserLogin.email user); exp := None |}
                (Some access_token_expires) issued_at in
            ret {| access_token := access_token; token_type := "bearer" |}
      end
  end.

(** *** Video routes *)

Definition upload_video (video : VideoUpload.t)
    (current_user : Stored User.t) (uuid4 : string) (timestamp : datetime)
    (oid : ObjectId) : Handler Uploaded.t :=
  let video_record :=
    {| VideoRecord.id := uuid4;
       VideoRecord.user_id := User.id (doc current_user);
       VideoRecord.video_data := VideoUpload.video_data video;
       VideoRecord.location_lat := VideoUpload.location_lat video;
       VideoRecord.location_lng := VideoUpload.location_lng video;
       VideoRecord.phone_number := VideoUpload.phone_number video;
       VideoRecord.timestamp := timestamp |} in
  _ <- db_videos_insert_one oid video_record ;;
  ret {| Uploaded.message := "Video uploaded successfully";
         Uploaded.video_id := VideoRecord.id video_record |}.

Definition summary_of (video : Stored VideoRecord.t) : VideoSummary.t :=
  {| VideoSummary.id := VideoRecord.id (doc video);
     VideoSummary.timestamp := VideoRecord.timestamp (doc video);
     VideoSummary.location_lat := VideoRecord.location_lat (doc video);
     VideoSummary.location_lng := VideoRecord.location_lng (doc video);
     VideoSummary.phone_number := VideoRecord.phone_number (doc video) |}.

Definition get_user_videos (current_user : Stored User.t)
  : Handler (list VideoSummary.t) :=
  cursor <- db_videos_find (User.id (doc current_user)) ;;
  let videos := to_list 1000 cursor in
  ret (summary_of <$> videos).

Definition not_found : HTTPException :=
  {| status_code := 404; detail := "Video not found"; headers := [] |}.

(** The returned dictionary is the document without its [_id]. *)
Definition get_video (video_id : string) (current_user : Stored User.t)
  : Handler VideoRecord.t :=
  video <- db_videos_find_one video_id (User.id (doc current_user)) ;;
  match video with
  | None => raise not_found
  | Some video => ret (doc video)
  end.

Definition delete_video (video_id : string) (current_user : Stored User.t)
  : Handler Deleted.t :=
  deleted_count <- db_videos_delete_one video_id (User.id (doc current_user)) ;;
  if (deleted_count =? 0)%Z then raise not_found
  else ret {| Deleted.message := "Video deleted successfully" |}.

End Server.

(** ** The remaining routes and the dependency injection *)

(** The dictionary [/me] answers with. *)
Module UserInfo.
Record t := {
  id : string;
  email : string;
  phone : option string;
  created_at : datetime
}.
End UserInfo.

Section Routes.
Context `{Crypto} `{FastAPI}.

Definition get_current_user_info (current_user : Stored User.t)
  : Handler UserInfo.t :=
  ret {| UserInfo.id := User.id (doc current_user);
         UserInfo.email := User.email (doc current_user);
         UserInfo.phone := User.phone (doc current_user);
         UserInfo.created_at := User.created_at (doc current_user) |}.

Definition root : Handler string := ret "Video Recording API".

(** A route declared with [current_user: dict = Depends(get_current_user)]:
    FastAPI resolves the dependency first and calls the endpoint with its
    value; an exception raised by the dependency is the response. *)
Definition Depends_get_current_user {A} (endpoint : Stored User.t → Handler A)
    (authorization : option Authorization) (utcnow : datetime) : Handler A :=
  current_user <- authenticate authorization utcnow ;;
  endpoint current_user.

Definition route_me := Depends_get_current_user get_current_user_info.

Definition route_upload_video (video : VideoUpload.t) (uuid4 : string)
    (timestamp : datetime) (oid : ObjectId) :=
  Depends_get_current_user
    (λ current_user, upload_video video current_user uuid4 timestamp oid).

Definition route_get_user_videos := Depends_get_current_user get_user_videos.

Definition route_get_video (video_id : string) :=
  Depends_get_current_user (get_video video_id).

Definition route_delete_video (video_id : string) :=
  Depends_get_current_user (delete_video video_id).

(** The header a client sends with a token it holds. *)
Definition bearer (token : EncodedJWT) : option Authorization :=
  Some {| auth_scheme := "Bearer"; auth_param := Some token |}.

End Routes.

(** ** The test script's environment loader ([backend_test.py])

    A character is a code point below 256.  The loader is given what
    iterating over the opened file yields, its lines with their line
    ends, or nothing when [open] raises [FileNotFoundError] (the message
    it then prints is left out). *)

(** [str.isspace] on one character. *)
Definition isspace (c : ascii) : bool :=
  let n := N_of_ascii c in
  ((9 <=? n) && (n <=? 13) || (28 <=? n) && (n <=? 32)
   || (n =? 133) || (n =? 160))%N.

(** The two characters given to the second [strip]: the double quote
    (code 34) and the single quote (code 39). *)
Definition isquote (c : ascii) : bool :=
  Ascii.eqb c "034"%char || Ascii.eqb c "039"%char.

Fixpoint lstrip (chars : ascii → bool) (s : string) : string :=
  match s with
  | EmptyString => EmptyString
  | String c rest => if chars c then lstrip chars rest else s
  end.

Fixpoint rstrip (chars : ascii → bool) (s : string) : string :=
  match s with
  | EmptyString => EmptyString
  | String c rest =>
      match rstrip chars rest with
      | EmptyString => if chars c then EmptyString else String c EmptyString
      | kept => String c kept
      end
  end.

(** [s.strip()] and [s.strip(chars)] *)
Definition strip (chars : ascii → bool) (s : string) : string :=
  rstrip chars (lstrip chars s).

(** [sep in s] together with [s.split(sep, 1)]: the text before and after
    the first [sep], or [None] when [s] has no [sep]. *)
Fixpoint split_once (sep : ascii) (s : string) : option (string * string) :=
  match s with
  | EmptyString => None
  | String c rest =>
      if Ascii.eqb c sep then Some (EmptyString, rest)
      else match split_once sep rest with
           | Some (head, tail) => Some (String c head, tail)
           | None => None
           end
  end.

(** The body of the [for] loop. *)
Definition load_env_line (env_vars : gmap string string) (line : string)
  : gmap string string :=
  let line := strip isspace line in
  if negb (String.eqb line "") && negb (String.prefix "#" line) then
    match split_once "="%char line with
    | Some (key, value) =>
        let value := strip isquote value in
        <[key := value]> env_vars
    | None => env_vars
    end
  else env_vars.

Definition load_env_file (f : option (list string)) : gmap string string :=
  match f with
  | Some lines => foldl load_env_line ∅ lines
  | None => ∅
  end.

Definition BACKEND_URL (frontend_env : gmap string string) : string :=
  default "http://localhost:8001" (frontend_env !! "EXPO_PUBLIC_BACKEND_URL").

Definition API_BASE_URL (frontend_env : gmap string string) : string :=
  BACKEND_URL frontend_env +:+ "/api".

(** What one line assigns, if anything. *)
Definition assignment (line : string) : option (string * string) :=
  let line := strip isspace line in
  if negb (String.eqb line "") && negb (String.prefix "#" line) then
    match split_once "="%char line with
    | Some (key, value) => Some (key, strip isquote value)
    | None => None
    end
  else None.

Abbreviation chars_of := list_ascii_of_string (only parsing).

(** ** The data-model invariant on video identifiers

    [VideoRecord.id] is drawn by [uuid.uuid4]; the store holds no two
    records with the same identifier as long as every draw is fresh. *)

Definition video_ids (db : DB) : list string :=
  (λ v, VideoRecord.id (doc v)) <$> videos db.

Definition unique_video_ids (db : DB) : Prop := NoDup (video_ids db).

Definition fresh_video_id (uuid4 : string) (db : DB) : Prop :=
  uuid4 ∉ video_ids db.

Definition owned_by (user_id : string) (db : DB) : list (Stored VideoRecord.t) :=
  find (by_user_id user_id) (videos db).

(** ** Vocabulary of the statements *)

Section Vocabulary.
Context `{Crypto} `{FastAPI}.
Implicit Types (db : DB) (record : Stored VideoRecord.t).

Definition duplicate_email : HTTPException :=
  {| status_code := 400; detail := "Email already registered";
     headers := [] |}.

Definition new_user (user : UserCreate.t) (salt uuid4 : string)
    (created_at : datetime) : User.t :=
  {| User.id := uuid4;
     User.email := UserCreate.email user;
     User.phone := UserCreate.phone user;
     User.hashed_password := bcrypt_hash salt (UserCreate.password user);
     User.created_at := created_at |}.

Definition issued_token (email : string) (issued_at : datetime) : EncodedJWT :=
  let payload :=
    {| sub := Some email;
       exp := Some (timegm (issued_at
                            + timedelta_minutes ACCESS_TOKEN_EXPIRE_MINUTES)) |} in
  JWS ALGORITHM payload (hmac_sha256 SECRET_KEY (ALGORITHM, payload)).

(** The window in which the gate honours a token issued at [issued_at]
    for [user], over any store that still begins with the users of [db]. *)
Definition token_window (resp : Token) (email : string)
    (issued_at : datetime) (user : Stored User.t) (db : DB) : Prop :=
  let expire := issued_at + timedelta_minutes ACCESS_TOKEN_EXPIRE_MINUTES in
  resp = {| access_token := issued_token email issued_at;
            token_type := "bearer" |} ∧
  find_one (by_email email) (users db) = Some user ∧
  User.email (doc user) = email ∧
  ∀ scheme now db',
    users db `prefix_of` users db' →
    let o := outcome (get_current_user
                        {| scheme := scheme;
                           credentials := access_token resp |} now db') in
    (timegm now ≤ timegm expire → o = inr user) ∧
    (timegm expire < timegm now → o = inl credentials_exception) ∧
    (now < expire → o = inr user) ∧
    (expire + 1000000 ≤ now → o = inl credentials_exception).

Definition new_record (video : VideoUpload.t) (user_id uuid4 : string)
    (timestamp : datetime) : VideoRecord.t :=
  {| VideoRecord.id := uuid4;
     VideoRecord.user_id := user_id;
     VideoRecord.video_data := VideoUpload.video_data video;
     VideoRecord.location_lat := VideoUpload.location_lat video;
     VideoRecord.location_lng := VideoUpload.location_lng video;
     VideoRecord.phone_number := VideoUpload.phone_number video;
     VideoRecord.timestamp := timestamp |}.

(** The same document with another payload. *)
Definition with_video_data (data : string) record : Stored VideoRecord.t :=
  {| _id := _id record;
     doc := {| VideoRecord.id := VideoRecord.id (doc record);
               VideoRecord.user_id := VideoRecord.user_id (doc record);
               VideoRecord.video_data := data;
               VideoRecord.location_lat := VideoRecord.location_lat (doc record);
               VideoRecord.location_lng := VideoRecord.location_lng (doc record);
               VideoRecord.phone_number := VideoRecord.phone_number (doc record);
               VideoRecord.timestamp := VideoRecord.timestamp (doc record) |} |}.

Definition overwrite_payloads (f : Stored VideoRecord.t → string) db : DB :=
  {| users := users db;
     videos := (λ v, with_video_data (f v) v) <$> videos db |}.

(** The stores the service can be in: it starts empty, and only register,
    upload and delete write.  Every identifier drawn for a video is fresh. *)
Inductive reachable : DB → Prop :=
  | reachable_empty : reachable {| users := []; videos := [] |}
  | reachable_register db user salt uuid4 created_at oid issued_at :
      reachable db →
      reachable (db_after (register user salt uuid4 created_at oid issued_at db))
  | reachable_upload db video current_user uuid4 timestamp oid :
      reachable db →
      fresh_video_id uuid4 db →
      reachable (db_after (upload_video video current_user uuid4 timestamp oid db))
  | reachable_delete db video_id current_user :
      reachable db →
      reachable (db_after (delete_video video_id current_user db)).

Definition user_emails (db : DB) : list string :=
  (λ u, User.email (doc u)) <$> users db.

(** The values a [datetime] (years 1 to 9999) and a [timedelta] (at most
    999999999 days either way) can have, in microseconds. *)
Definition valid_datetime (d : datetime) : Prop :=
  -62135596800000000 ≤ d ≤ 253402300799999999.

Definition valid_timedelta (delta : timedelta) : Prop :=
  -86399999913600000000 ≤ delta ≤ 86399999999999999999.

End Vocabulary.

(** A stand-in for the library functions, to run the handlers on concrete
    requests.  As passlib's bcrypt does, it refuses a secret that has a NUL
    byte. *)
Definition toy_crypto : Crypto := {|
  bcrypt_hash salt password := salt +:+ "$" +:+ password;
  bcrypt_check password blob :=
    bool_decide (Exists (λ salt, blob = salt +:+ "$" +:+ password) ["s1"; "s2"]);
  secret_refused password :=
    bool_decide ("000"%char ∈ list_ascii_of_string password);
  hash_unknown blob :=
    negb (String.prefix "s1$" blob || String.prefix "s2$" blob);
  hmac_sha256 key input :=
    key +:+ "." +:+ input.1 +:+ "." +:+ default "" (sub input.2)
        +:+ "." +:+ default "" (pretty <$> exp input.2)
|}.

(** [HTTPBearer] as current FastAPI has it, and as releases before the
    change had it. *)
Definition fastapi_current : FastAPI := {|
  not_authenticated_error :=
    {| status_code := 401; detail := "Not authenticated";
       headers := [("WWW-Authenticate", "Bearer")] |};
  invalid_scheme_error :=
    {| status_code := 401; detail := "Not authenticated";
       headers := [("WWW-Authenticate", "Bearer")] |};
  not_authenticated_status := or_introl eq_refl;
  invalid_scheme_status := or_introl eq_refl
|}.

Definition fastapi_legacy : FastAPI := {|
  not_authenticated_error :=
    {| status_code := 403; detail := "Not authenticated"; headers := [] |};
  invalid_scheme_error :=
    {| status_code := 403; detail := "Invalid authentication credentials";
       headers := [] |};
  not_authenticated_status := or_intror eq_refl;
  invalid_scheme_status := or_intror eq_refl
|}.

(** ** Sample accounts, clips and stores *)

Definition alice : Stored User.t :=
  {| _id := 1;
     doc := {| User.id := "u-alice";
               User.email := "alice@example.com";
               User.phone := Some "+1-555-0123";
               User.hashed_password := "s1$correct horse";
               User.created_at := 1000000 |} |}.

Definition bob : Stored User.t :=
  {| _id := 2;
     doc := {| User.id := "u-bob";
               User.email := "bob@example.com";
               User.phone := None;
               User.hashed_password := "s2$hunter2";
               User.created_at := 2000000 |} |}.

Definition alice_clip : Stored VideoRecord.t :=
  {| _id := 3;
     doc := {| VideoRecord.id := "clip-1";
               VideoRecord.user_id := "u-alice";
               VideoRecord.video_data := "VGhpcyBpcyBhIHNhbXBsZQ==";
               VideoRecord.location_lat := Some 37.75%float;
               VideoRecord.location_lng := Some (-122.5)%float;
               VideoRecord.phone_number := Some "+1-555-0987";
               VideoRecord.timestamp := 3000000 |} |}.

Definition bob_clip : Stored VideoRecord.t :=
  {| _id := 4;
     doc := {| VideoRecord.id := "clip-2";
               VideoRecord.user_id := "u-bob";
               VideoRecord.video_data := "Ym9iJ3MgY2xpcA==";
               VideoRecord.location_lat := None;
               VideoRecord.location_lng := None;
               VideoRecord.phone_number := None;
               VideoRecord.timestamp := 4000000 |} |}.

Definition sample_db : DB :=
  {| users := [alice; bob]; videos := [alice_clip; bob_clip] |}.

Definition alice_login : UserLogin.t :=
  {| UserLogin.email := "alice@example.com"; UserLogin.password := "correct horse" |}.

Definition alice_wrong_password : UserLogin.t :=
  {| UserLogin.email := "alice@example.com"; UserLogin.password := "battery staple" |}.

Definition carol_login : UserLogin.t :=
  {| UserLogin.email := "carol@example.com"; UserLogin.password := "correct horse" |}.

(** A password with a NUL byte. *)
Definition nul_password : string := "pass" +:+ String "000"%char "word".

Definition alice_nul_login : UserLogin.t :=
  {| UserLogin.email := "alice@example.com"; UserLogin.password := nul_password |}.

Definition carol_nul_login : UserLogin.t :=
  {| UserLogin.email := "carol@example.com"; UserLogin.password := nul_password |}.


Definition carol_signup : UserCreate.t :=
  {| UserCreate.email := "carol@example.com"; UserCreate.password := "tr0ub4dor";
     UserCreate.phone := None |}.


Definition new_clip : VideoUpload.t :=
  {| VideoUpload.video_data := "bmV3IGNsaXA=";
     VideoUpload.location_lat := Some 37.75%float;
     VideoUpload.location_lng := None;
     VideoUpload.phone_number := None |}.

(** A store in which alice owns 1001 clips, ["v0"] to ["v1000"]. *)
Definition numbered_clip (n : nat) : Stored VideoRecord.t :=
  {| _id := N.of_nat (10 + n);
     doc := {| VideoRecord.id := "v" +:+ pretty n;
               VideoRecord.user_id := "u-alice";
               VideoRecord.video_data := "AAAA";
               VideoRecord.location_lat := None;
               VideoRecord.location_lng := None;
               VideoRecord.phone_number := None;
               VideoRecord.timestamp := Z.of_nat n |} |}.

Definition crowded_db : DB :=
  {| users := [alice; bob]; videos := numbered_clip <$> seq 0 1001 |}.

(** The token alice obtains by logging in at second 5. *)
Definition alice_token : EncodedJWT :=
  issued_token (H := toy_crypto) "alice@example.com" 5000000.

Definition alice_credentials : HTTPAuthorizationCredentials :=
  {| scheme := "Bearer"; credentials := alice_token |}.

(** A signed, unexpired claim set without subject. *)
Definition anonymous_claims : Claims := {| sub := None; exp := Some 100 |}.

(** The store after carol has signed up on an empty database, and after
    she has then uploaded a clip. *)
Definition empty_db : DB := {| users := []; videos := [] |}.

Definition carol_db : DB :=
  db_after (register (H := toy_crypto) carol_signup "s1" "u-carol" 7000000 5
              7000001 empty_db).

Definition carol : Stored User.t :=
  {| _id := 5;
     doc := new_user (H := toy_crypto) carol_signup "s1" "u-carol" 7000000 |}.

Definition carol_clip_db : DB :=
  db_after (upload_video new_clip carol "clip-9" 8000000 6 carol_db).

(** An environment file. *)
Definition double_quote : ascii := "034"%char.
Definition new_line : string := String "010"%char "".

Definition backend_url_line : string :=
  ("EXPO_PUBLIC_BACKEND_URL"
   +:+ String "=" (String double_quote
                     ("https://cam.example.com?x=1"
                      +:+ String double_quote "")))
  +:+ new_line.

Definition sample_env : list string :=
  [ "# frontend settings" +:+ new_line;
    new_line;
    "EXPO_PUBLIC_BACKEND_URL=http://old.example.com" +:+ new_line;
    backend_url_line;
    "no assignment here" +:+ new_line ].

(** * Facts about the collection primitives *)

Section CollectionFacts.
Context {A : Type} (P : A → Prop) `{!∀ x, Decision (P x)}.
Implicit Types (l : list A) (x : A).

Lemma find_one_first l x :
  find_one P l = Some x ↔
  ∃ l1 l2, l = l1 ++ x :: l2 ∧ P x ∧ ∀ y, y ∈ l1 → ¬ P y.
Proof.
  unfold find_one. induction l as [|a l IH]; simpl.
  - split; [done|]. intros (l1 & l2 & E & _). by destruct l1.
  - rewrite filter_cons. destruct (decide (P a)) as [Ha|Ha]; simpl.
    + split.
      * intros [= ->]. exists [], l. split_and!; [done..|].
        intros y Hy. by apply elem_of_nil in Hy.
      * intros ([|b l1] & l2 & E & Hx & Hl1); simplify_eq/=; [done|].
        exfalso. apply (Hl1 b); [left|done].
    + rewrite IH. split.
      * intros (l1 & l2 & -> & Hx & Hl1). exists (a :: l1), l2.
        split_and!; [done..|]. intros y [->|Hy]%elem_of_cons; auto.
      * intros ([|b l1] & l2 & E & Hx & Hl1); simplify_eq/=; [done|].
        exists l1, l2. split_and!; [done..|].
        intros y Hy. apply Hl1. by right.
Qed.

Lemma find_one_Some l x : find_one P l = Some x → P x ∧ x ∈ l.
Proof.
  intros (l1 & l2 & -> & Hx & _)%find_one_first. split; [done|].
  apply elem_of_app. right. left.
Qed.

Lemma find_one_None l : find_one P l = None ↔ ∀ x, x ∈ l → ¬ P x.
Proof.
  unfold find_one. rewrite head_None. split.
  - intros E x Hx HP. by eapply filter_nil_not_elem_of.
  - intros Hl. induction l as [|a l IH]; [done|].
    rewrite filter_cons, decide_False by (apply Hl; left).
    apply IH. intros x Hx. apply Hl. by right.
Qed.

Lemma find_one_is_Some l x : x ∈ l → P x → is_Some (find_one P l).
Proof.
  intros Hx HP. destruct (find_one P l) eqn:E; [by eexists|].
  exfalso. eapply find_one_None; eauto.
Qed.

Lemma find_one_app_miss l x :
  find_one P l = None → find_one P (l ++ [x]) = find_one P [x].
Proof.
  unfold find_one. rewrite head_None, filter_app. by intros ->.
Qed.

Lemma find_one_app_hit l l' x :
  find_one P l = Some x → find_one P (l ++ l') = Some x.
Proof.
  unfold find_one. rewrite filter_app.
  destruct (filter P l); [done|]. by intros [= ->].
Qed.

Lemma delete_one_none l : (∀ x, x ∈ l → ¬ P x) → delete_one P l = (l, 0).
Proof.
  induction l as [|a l IH]; intros Hl; simpl; [done|].
  rewrite decide_False by (apply Hl; left).
  rewrite IH; [done|]. intros x Hx. apply Hl. by right.
Qed.

Lemma delete_one_first l1 x l2 :
  P x → (∀ y, y ∈ l1 → ¬ P y) →
  delete_one P (l1 ++ x :: l2) = (l1 ++ l2, 1).
Proof.
  intros Hx. induction l1 as [|a l1 IH]; intros Hl1; simpl.
  - by rewrite decide_True.
  - rewrite decide_False by (apply Hl1; left).
    rewrite IH; [done|]. intros y Hy. apply Hl1. by right.
Qed.

(** [deleted_count] is 0 exactly when nothing matches, and 1 otherwise. *)
Lemma delete_one_cases l :
  (delete_one P l = (l, 0) ∧ ∀ x, x ∈ l → ¬ P x) ∨
  (∃ l1 x l2, l = l1 ++ x :: l2 ∧ P x ∧ (∀ y, y ∈ l1 → ¬ P y) ∧
              delete_one P l = (l1 ++ l2, 1)).
Proof.
  destruct (find_one P l) as [x|] eqn:E.
  - right. apply find_one_first in E as (l1 & l2 & -> & Hx & Hl1).
    exists l1, x, l2. split_and!; [done..|]. by apply delete_one_first.
  - left. rewrite find_one_None in E. split; [|done]. by apply delete_one_none.
Qed.
End CollectionFacts.

(** * The session token and the authentication gate *)

Section Gate.
Context `{Crypto} `{FastAPI}.
Implicit Types (db : DB) (now : Z) (creds : HTTPAuthorizationCredentials).

Lemma timedelta_minutes_30 : timedelta_minutes ACCESS_TOKEN_EXPIRE_MINUTES = 1800000000.
Proof. reflexivity. Qed.

Lemma timegm_mono (a b : Z) : a ≤ b → timegm a ≤ timegm b.
Proof. intros. unfold timegm. apply Z.div_le_mono; lia. Qed.

Lemma timegm_next_second (a b : Z) : a + 1000000 ≤ b → timegm a < timegm b.
Proof.
  intros Hab. unfold timegm.
  assert (a `div` 1000000 + 1 ≤ b `div` 1000000); [|lia].
  replace (a `div` 1000000 + 1) with ((a + 1 * 1000000) `div` 1000000)
    by (rewrite Z.div_add by lia; lia).
  apply Z.div_le_mono; lia.
Qed.

(** What [jwt.decode] accepts. *)
Lemma jwt_decode_ok token key algorithms now payload :
  jwt_decode token key algorithms now = inr payload ↔
  ∃ alg signature,
    token = JWS alg payload signature ∧ alg ∈ algorithms ∧
    signature = hmac_sha256 key (alg, payload) ∧
    ∀ e, exp payload = Some e → timegm now ≤ e.
Proof.
  unfold jwt_decode. split.
  - destruct token as [raw|alg p sg]; [done|].
    repeat case_decide; try done.
    destruct (exp p) as [e|] eqn:He.
    + destruct (Z.ltb_spec e (timegm now)); [done|].
      intros [= <-]. exists alg, sg. split_and!; try done.
      intros e' ?. by simplify_eq.
    + intros [= <-]. exists alg, sg. split_and!; try done. by rewrite He.
  - intros (alg & sg & -> & Halg & -> & Hexp).
    rewrite decide_True, decide_True by done.
    destruct (exp payload) as [e|]; [|done].
    specialize (Hexp e eq_refl).
    destruct (Z.ltb_spec e (timegm now)); [lia|done].
Qed.

(** A token the server has just encoded is accepted up to the second of
    its expiry, and refused from the next second on. *)
Lemma jwt_decode_encode email expire key algorithm now :
  jwt_decode (jwt_encode {| sub := Some email; exp := Some expire |}
                key algorithm) key [algorithm] now
  = if (timegm expire <? timegm now)%Z then inl ExpiredSignatureError
    else inr {| sub := Some email; exp := Some (timegm expire) |}.
Proof.
  unfold jwt_decode, jwt_encode. simpl.
  rewrite decide_True by (apply list_elem_of_singleton; done).
  by rewrite decide_True.
Qed.

Lemma create_access_token_login email issued_at :
  create_access_token {| sub := Some email; exp := None |}
    (Some (timedelta_minutes ACCESS_TOKEN_EXPIRE_MINUTES)) issued_at
  = jwt_encode {| sub := Some email;
                  exp := Some (issued_at
                               + timedelta_minutes ACCESS_TOKEN_EXPIRE_MINUTES) |}
      SECRET_KEY ALGORITHM.
Proof. reflexivity. Qed.

(** The gate never writes, and every rejection is the one exception. *)
Lemma get_current_user_db creds now db :
  db_after (get_current_user creds now db) = db.
Proof.
  unfold get_current_user.
  destruct (jwt_decode _ _ _ _) as [?|p]; [done|].
  destruct (sub p); [|done]. unfold bind; simpl.
  by destruct (find_one _ _).
Qed.

Lemma get_current_user_raises creds now db e :
  outcome (get_current_user creds now db) = inl e →
  e = credentials_exception.
Proof.
  unfold get_current_user.
  destruct (jwt_decode _ _ _ _) as [?|p]; simpl; [congruence|].
  destruct (sub p); simpl; [|congruence]. unfold bind; simpl.
  destruct (find_one _ _); simpl; congruence.
Qed.

Lemma get_current_user_decoded creds now db payload :
  jwt_decode (credentials creds) SECRET_KEY [ALGORITHM] now = inr payload →
  get_current_user creds now db =
  match sub payload with
  | None => raise credentials_exception db
  | Some email =>
      match find_one (by_email email) (users db) with
      | None => {| outcome := inl credentials_exception; db_after := db;
                   calls := [users_find_one email] |}
      | Some user => {| outcome := inr user; db_after := db;
                        calls := [users_find_one email] |}
      end
  end.
Proof.
  intros E. unfold get_current_user. rewrite E.
  destruct (sub payload); [|done]. unfold bind; simpl.
  by destruct (find_one _ _).
Qed.

Lemma get_current_user_refused creds now db err :
  jwt_decode (credentials creds) SECRET_KEY [ALGORITHM] now = inl err →
  get_current_user creds now db = raise credentials_exception db.
Proof. intros E. unfold get_current_user. by rewrite E. Qed.

End Gate.

Section AuthenticationGate.
Context `{Crypto} `{FastAPI}.
Implicit Types (db : DB) (now : Z) (payload : Claims).

(** C9.  A token whose signature verifies and whose expiry has not passed,
    but whose payload has no ["sub"], is rejected by the gate with the very
    exception it raises for a bad signature, and the gate makes no store
    call for it. *)
Theorem C9_missing_subject_rejected scheme payload now db :
  let token := JWS ALGORITHM payload
                 (hmac_sha256 SECRET_KEY (ALGORITHM, payload)) in
  let creds := {| scheme := scheme; credentials := token |} in
  (∀ e, exp payload = Some e → timegm now ≤ e) →
  sub payload = None →
  jwt_decode token SECRET_KEY [ALGORITHM] now = inr payload ∧
  get_current_user creds now db =
    {| outcome := inl credentials_exception; db_after := db; calls := [] |} ∧
  response_status (outcome (get_current_user creds now db)) = 401 ∧
  ∀ forged,
    forged ≠ hmac_sha256 SECRET_KEY (ALGORITHM, payload) →
    get_current_user {| scheme := scheme;
                        credentials := JWS ALGORITHM payload forged |} now db
    = get_current_user creds now db.
Proof.
  intros token creds Hexp Hsub.
  assert (Hdec : jwt_decode token SECRET_KEY [ALGORITHM] now = inr payload).
  { apply jwt_decode_ok. exists ALGORITHM, (hmac_sha256 SECRET_KEY (ALGORITHM, payload)).
    split_and!; try done. by apply list_elem_of_singleton. }
  assert (Hrun : get_current_user creds now db = raise credentials_exception db).
  { rewrite (get_current_user_decoded creds now db payload Hdec). by rewrite Hsub. }
  split_and!; [done|by rewrite Hrun..|].
  intros forged Hforged. rewrite Hrun.
  unfold get_current_user, jwt_decode; simpl.
  repeat case_decide; done.
Qed.

Lemma authenticate_raises authorization now db e :
  outcome (authenticate authorization now db) = inl e →
  e = not_authenticated_error ∨ e = invalid_scheme_error
  ∨ e = credentials_exception.
Proof.
  unfold authenticate, security, bind.
  destruct authorization as [[s [param|]]|]; simpl;
    repeat case_bool_decide; simpl; try (intros [= <-]; by auto).
  destruct (get_current_user _ now db) as [[e'|u] d c] eqn:E; simpl;
    [|done].
  intros [= <-]. right. right.
  apply (get_current_user_raises {| scheme := s; credentials := param |}
           now db). by rewrite E.
Qed.


End AuthenticationGate.

(** * Registration and login *)

Section Accounts.
Context `{Crypto} `{FastAPI}.
Implicit Types (db : DB) (now : Z).

Lemma register_taken user salt uuid4 created_at oid issued_at db :
  is_Some (find_one (by_email (UserCreate.email user)) (users db)) →
  register user salt uuid4 created_at oid issued_at db =
  {| outcome := inl duplicate_email; db_after := db;
     calls := [users_find_one (UserCreate.email user)] |}.
Proof. intros [u Hu]. unfold register, bind; simpl. by rewrite Hu. Qed.

Lemma get_password_hash_Some salt password :
  is_Some (get_password_hash salt password) →
  get_password_hash salt password = Some (bcrypt_hash salt password).
Proof.
  unfold get_password_hash. destruct (secret_refused password); [|done].
  by intros [? ?].
Qed.

(** A password that verification returns on is one the hasher takes:
    both refuse the same secrets. *)
Lemma verified_password_hashable salt password blob (b : bool) :
  bcrypt_verify password blob = b →
  is_Some (get_password_hash salt password).
Proof.
  unfold bcrypt_verify, get_password_hash.
  destruct (hash_unknown blob); [done|]. simpl.
  destruct (secret_refused password); [done|]. by eexists.
Qed.

Lemma register_free user salt uuid4 created_at oid issued_at db :
  find_one (by_email (UserCreate.email user)) (users db) = None →
  is_Some (get_password_hash salt (UserCreate.password user)) →
  register user salt uuid4 created_at oid issued_at db =
  {| outcome := inr {| access_token := issued_token (UserCreate.email user) issued_at;
                       token_type := "bearer" |};
     db_after :=
       {| users := users db
                   ++ [Build_Stored oid (new_user user salt uuid4 created_at)];
          videos := videos db |};
     calls := [users_find_one (UserCreate.email user);
               users_insert_one (new_user user salt uuid4 created_at)] |}.
Proof.
  intros Hu Hhash%get_password_hash_Some. unfold register, bind; simpl.
  by rewrite Hu, Hhash.
Qed.

(** The hasher raises after the lookup and before the insert. *)
Lemma register_refused user salt uuid4 created_at oid issued_at db :
  find_one (by_email (UserCreate.email user)) (users db) = None →
  get_password_hash salt (UserCreate.password user) = None →
  register user salt uuid4 created_at oid issued_at db =
  {| outcome := inl internal_server_error; db_after := db;
     calls := [users_find_one (UserCreate.email user)] |}.
Proof.
  intros Hu Hhash. unfold register, bind; simpl. by rewrite Hu, Hhash.
Qed.

Lemma login_run user issued_at db :
  login user issued_at db =
  {| outcome :=
       match find_one (by_email (UserLogin.email user)) (users db) with
       | Some db_user =>
           match verify_password (UserLogin.password user)
                   (User.hashed_password (doc db_user)) with
           | Verified true =>
               inr {| access_token :=
                        issued_token (UserLogin.email user) issued_at;
                      token_type := "bearer" |}
           | Verified false => inl invalid_credentials
           | VerifyRaises => inl internal_server_error
           end
       | None => inl invalid_credentials
       end;
     db_after := db;
     calls := [users_find_one (UserLogin.email user)] |}.
Proof.
  unfold login, bind; simpl.
  destruct (find_one _ _) as [u|]; [|done].
  by destruct (verify_password _ _) as [[|]|].
Qed.


(** When verification returns, the two failures of login are one and the
    same response. *)
Lemma login_rejections_identical
    (wrong_password unknown_email : UserLogin.t) t1 t2 db1 db2 :
  (∃ u, u ∈ users db1 ∧ User.email (doc u) = UserLogin.email wrong_password) →
  (∀ u, u ∈ users db1 → User.email (doc u) = UserLogin.email wrong_password →
        verify_password (UserLogin.password wrong_password)
          (User.hashed_password (doc u)) = false) →
  (∀ u, u ∈ users db2 → User.email (doc u) ≠ UserLogin.email unknown_email) →
  let r1 := login wrong_password t1 db1 in
  let r2 := login unknown_email t2 db2 in
  outcome r1 = outcome r2 ∧
  outcome r1 = inl {| status_code := 401;
                      detail := "Incorrect email or password";
                      headers := [("WWW-Authenticate", "Bearer")] |} ∧
  response_status (outcome r1) = 401 ∧
  response_status (outcome r2) = 401 ∧
  db_after r1 = db1 ∧ db_after r2 = db2.
Proof.
  intros (u & Hu & Hemail) Hwrong Hunknown r1 r2. subst r1 r2.
  rewrite !login_run; simpl.
  destruct (find_one_is_Some (by_email (UserLogin.email wrong_password))
              (users db1) u Hu Hemail) as [v Hv].
  rewrite Hv. apply find_one_Some in Hv as [Hve Hvin].
  rewrite (Hwrong v Hvin Hve).
  assert (find_one (by_email (UserLogin.email unknown_email)) (users db2) = None)
    as ->; [|done].
  apply find_one_None. intros w Hw. by apply Hunknown.
Qed.

(** C4 (the code where the claim fails).  [login] calls
    [verify_password] only for a registered email and catches nothing.
    With a password on which verification raises, the request for the
    registered email ends in 500 and the request for an email no account
    has in the 401 of login: the two responses differ. *)
Theorem C4_login_failures_tell_registered_email
    (registered unknown_email : UserLogin.t) t1 t2 db db_user :
  find_one (by_email (UserLogin.email registered)) (users db) = Some db_user →
  verify_password (UserLogin.password registered)
    (User.hashed_password (doc db_user)) = VerifyRaises →
  (∀ u, u ∈ users db → User.email (doc u) ≠ UserLogin.email unknown_email) →
  let r1 := login registered t1 db in
  let r2 := login unknown_email t2 db in
  outcome r1 = inl internal_server_error ∧
  response_status (outcome r1) = 500 ∧
  outcome r2 = inl invalid_credentials ∧
  response_status (outcome r2) = 401 ∧
  outcome r1 ≠ outcome r2.
Proof.
  intros Hfound Hraises Hunknown r1 r2. subst r1 r2.
  rewrite !login_run. cbn [outcome]. rewrite Hfound, Hraises.
  assert (find_one (by_email (UserLogin.email unknown_email)) (users db) = None)
    as ->.
  { apply find_one_None. intros w Hw. by apply Hunknown. }
  split_and!; done.
Qed.

End Accounts.

Section TokenLifetime.
Context `{Crypto} `{FastAPI}.
Implicit Types (db : DB) (now : Z).

Lemma issued_token_window email issued_at user db :
  find_one (by_email email) (users db) = Some user →
  token_window {| access_token := issued_token email issued_at;
                  token_type := "bearer" |} email issued_at user db.
Proof.
  intros Huser. unfold token_window. simpl.
  split_and!; [done|done|by apply find_one_Some in Huser as [? _]|].
  intros scheme now db' [more Hmore].
  set (expire := issued_at + timedelta_minutes ACCESS_TOKEN_EXPIRE_MINUTES).
  set (creds := {| scheme := scheme;
                   credentials := issued_token email issued_at |}).
  assert (Hfind : find_one (by_email email) (users db') = Some user).
  { rewrite Hmore. by apply find_one_app_hit. }
  assert (Hdec : jwt_decode (credentials creds) SECRET_KEY [ALGORITHM] now
                 = if (timegm expire <? timegm now)%Z
                   then inl ExpiredSignatureError
                   else inr {| sub := Some email;
                               exp := Some (timegm expire) |}).
  { apply (jwt_decode_encode email expire SECRET_KEY ALGORITHM now). }
  assert (Hin : timegm now ≤ timegm expire →
                outcome (get_current_user creds now db') = inr user).
  { intros Hle. destruct (Z.ltb_spec (timegm expire) (timegm now)); [lia|].
    rewrite (get_current_user_decoded creds now db' _ Hdec). simpl.
    by rewrite Hfind. }
  assert (Hout : timegm expire < timegm now →
                 outcome (get_current_user creds now db')
                 = inl credentials_exception).
  { intros Hlt. destruct (Z.ltb_spec (timegm expire) (timegm now)); [|lia].
    by rewrite (get_current_user_refused creds now db' _ Hdec). }
  split_and!; [done|done| |].
  - intros Hlt. apply Hin, timegm_mono. lia.
  - intros Hge. by apply Hout, timegm_next_second.
Qed.

(** C2 (as the code has it).  The token that login or register issues has
    subject = the email and expiry = the second of issue time plus 30
    minutes.  The gate accepts it, resolving to the user that obtained
    it, at every time whose whole second is not after the expiry's (so at
    every time strictly before the expiry), and rejects it with the 401
    exception from the next whole second on (so at every time at least
    one second after the expiry). *)
Theorem C2_token_honoured_through_expiry_second db :
  (∀ user issued_at resp,
     outcome (login user issued_at db) = inr resp →
     ∃ db_user,
       verify_password (UserLogin.password user)
         (User.hashed_password (doc db_user)) = true ∧
       token_window resp (UserLogin.email user) issued_at db_user db) ∧
  (∀ user salt uuid4 created_at oid issued_at resp,
     let r := register user salt uuid4 created_at oid issued_at db in
     outcome r = inr resp →
     users (db_after r)
       = users db ++ [Build_Stored oid (new_user user salt uuid4 created_at)] ∧
     token_window resp (UserCreate.email user) issued_at
       (Build_Stored oid (new_user user salt uuid4 created_at)) (db_after r)).
Proof.
  split.
  - intros user issued_at resp. rewrite login_run; simpl.
    destruct (find_one _ _) as [u|] eqn:Hu; [|done].
    destruct (verify_password _ _) as [[|]|] eqn:Hpw; [|done|done].
    intros [= <-]. exists u. split; [done|]. by apply issued_token_window.
  - intros user salt uuid4 created_at oid issued_at resp r. subst r.
    destruct (find_one (by_email (UserCreate.email user)) (users db)) as [u|] eqn:Hu.
    + rewrite register_taken by (by eexists). done.
    + destruct (get_password_hash salt (UserCreate.password user))
        as [hashed|] eqn:Hhash; [|by rewrite register_refused].
      rewrite register_free by done. simpl. intros [= <-].
      split; [done|]. apply issued_token_window. simpl.
      rewrite find_one_app_miss by done.
      unfold find_one. by rewrite filter_cons, decide_True.
Qed.

End TokenLifetime.

(** * The video routes *)

Section VideoRoutes.
Context `{Crypto} `{FastAPI}.
Implicit Types (db : DB) (current_user caller : Stored User.t)
  (record : Stored VideoRecord.t).

Lemma upload_video_run video current_user uuid4 timestamp oid db :
  upload_video video current_user uuid4 timestamp oid db =
  {| outcome := inr {| Uploaded.message := "Video uploaded successfully";
                       Uploaded.video_id := uuid4 |};
     db_after :=
       {| users := users db;
          videos := videos db
                    ++ [Build_Stored oid
                          (new_record video (User.id (doc current_user))
                             uuid4 timestamp)] |};
     calls := [videos_insert_one
                 (new_record video (User.id (doc current_user))
                    uuid4 timestamp)] |}.
Proof. reflexivity. Qed.

Lemma get_user_videos_run current_user db :
  get_user_videos current_user db =
  {| outcome := inr (summary_of
                       <$> take 1000 (owned_by (User.id (doc current_user)) db));
     db_after := db;
     calls := [videos_find (User.id (doc current_user))] |}.
Proof. reflexivity. Qed.

Lemma get_video_run video_id current_user db :
  get_video video_id current_user db =
  {| outcome :=
       match find_one (by_id_and_user_id video_id (User.id (doc current_user)))
               (videos db) with
       | Some video => inr (doc video)
       | None => inl not_found
       end;
     db_after := db;
     calls := [videos_find_one video_id (User.id (doc current_user))] |}.
Proof.
  unfold get_video, bind; simpl. by destruct (find_one _ _).
Qed.

Lemma delete_video_miss video_id current_user db :
  (∀ record, record ∈ videos db →
     ¬ by_id_and_user_id video_id (User.id (doc current_user)) record) →
  delete_video video_id current_user db =
  {| outcome := inl not_found; db_after := db;
     calls := [videos_delete_one video_id (User.id (doc current_user))] |}.
Proof.
  intros Hmiss. unfold delete_video, bind, db_videos_delete_one.
  rewrite delete_one_none by done. simpl. by destruct db.
Qed.

Lemma delete_video_hit video_id current_user db before record after :
  videos db = before ++ record :: after →
  by_id_and_user_id video_id (User.id (doc current_user)) record →
  (∀ earlier, earlier ∈ before →
     ¬ by_id_and_user_id video_id (User.id (doc current_user)) earlier) →
  delete_video video_id current_user db =
  {| outcome := inr {| Deleted.message := "Video deleted successfully" |};
     db_after := {| users := users db; videos := before ++ after |};
     calls := [videos_delete_one video_id (User.id (doc current_user))] |}.
Proof.
  intros Hsplit Hrecord Hbefore. unfold delete_video, bind, db_videos_delete_one.
  rewrite Hsplit, delete_one_first by done. done.
Qed.

(** [delete_video] either finds nothing and changes nothing, or removes
    the first record with the asked id that the caller owns. *)
Lemma delete_video_cases video_id current_user db :
  let r := delete_video video_id current_user db in
  (outcome r = inl not_found ∧ db_after r = db ∧
   ∀ record, record ∈ videos db →
     ¬ by_id_and_user_id video_id (User.id (doc current_user)) record) ∨
  (∃ before record after,
     videos db = before ++ record :: after ∧
     by_id_and_user_id video_id (User.id (doc current_user)) record ∧
     outcome r = inr {| Deleted.message := "Video deleted successfully" |} ∧
     db_after r = {| users := users db; videos := before ++ after |}).
Proof.
  intros r. subst r.
  destruct (delete_one_cases
              (by_id_and_user_id video_id (User.id (doc current_user)))
              (videos db))
    as [[_ Hmiss]|(before & record & after & Hsplit & Hrecord & Hbefore & _)].
  - left. by rewrite delete_video_miss.
  - right. exists before, record, after.
    by rewrite (delete_video_hit _ _ _ before record after).
Qed.

(** With unique identifiers, an identifier names at most one record. *)
Lemma unique_video_ids_inj db r1 r2 :
  unique_video_ids db → r1 ∈ videos db → r2 ∈ videos db →
  VideoRecord.id (doc r1) = VideoRecord.id (doc r2) → r1 = r2.
Proof.
  unfold unique_video_ids, video_ids. intros Hnd H1 H2 Hid.
  apply list_elem_of_lookup in H1 as [i Hi], H2 as [j Hj].
  assert (i = j) as ->; [|congruence].
  eapply NoDup_lookup; [exact Hnd| |].
  - rewrite list_lookup_fmap, Hi. reflexivity.
  - rewrite list_lookup_fmap, Hj. simpl. by rewrite Hid.
Qed.

Lemma unique_video_ids_upload video current_user uuid4 timestamp oid db :
  unique_video_ids db → fresh_video_id uuid4 db →
  unique_video_ids
    (db_after (upload_video video current_user uuid4 timestamp oid db)).
Proof.
  unfold unique_video_ids, fresh_video_id, video_ids.
  rewrite upload_video_run. cbn [db_after videos].
  intros Hnd Hfresh. rewrite fmap_app. apply NoDup_app.
  split_and!; [done| |apply NoDup_singleton].
  intros x Hx ->%list_elem_of_singleton. done.
Qed.

Lemma unique_video_ids_delete video_id current_user db :
  unique_video_ids db →
  unique_video_ids (db_after (delete_video video_id current_user db)).
Proof.
  intros Hnd.
  destruct (delete_video_cases video_id current_user db)
    as [(_ & -> & _)|(before & record & after & Hsplit & _ & _ & ->)]; [done|].
  revert Hnd. unfold unique_video_ids, video_ids. cbn [videos]. rewrite Hsplit.
  rewrite !fmap_app, fmap_cons, !NoDup_app, NoDup_cons.
  intros (? & Hdisj & _ & ?). split_and!; [done| |done].
  intros x Hx Hx'. apply (Hdisj x Hx). by right.
Qed.

End VideoRoutes.

(** * Invariants of the reachable stores *)

Section Reachable.
Context `{Crypto} `{FastAPI}.

Lemma register_users user salt uuid4 created_at oid issued_at db :
  let r := register user salt uuid4 created_at oid issued_at db in
  videos (db_after r) = videos db ∧
  (users (db_after r) = users db ∨
   (UserCreate.email user ∉ user_emails db) ∧
   users (db_after r)
     = users db ++ [Build_Stored oid (new_user user salt uuid4 created_at)]).
Proof.
  intros r. subst r.
  destruct (find_one (by_email (UserCreate.email user)) (users db)) as [u|] eqn:Hu.
  - rewrite register_taken by (by eexists). auto.
  - destruct (get_password_hash salt (UserCreate.password user))
      as [hashed|] eqn:Hhash; [|rewrite register_refused by done; auto].
    rewrite register_free by done. cbn [db_after users videos].
    split; [done|]. right. split; [|done].
    intros (u & Hemail & Hin)%list_elem_of_fmap.
    by apply (proj1 (find_one_None _ _) Hu u).
Qed.

Lemma reachable_unique_video_ids db : reachable db → unique_video_ids db.
Proof.
  induction 1 as [|db user salt uuid4 created_at oid issued_at _ IH
                  |db video current_user uuid4 timestamp oid _ IH Hfresh
                  |db video_id current_user _ IH].
  - apply NoDup_nil_2.
  - destruct (register_users user salt uuid4 created_at oid issued_at db)
      as [Hvideos _].
    revert IH. unfold unique_video_ids, video_ids. by rewrite Hvideos.
  - by apply unique_video_ids_upload.
  - by apply unique_video_ids_delete.
Qed.

(** Check-then-insert keeps emails unique as long as requests do not
    interleave. *)
Lemma reachable_unique_emails db : reachable db → NoDup (user_emails db).
Proof.
  induction 1 as [|db user salt uuid4 created_at oid issued_at _ IH
                  |db video current_user uuid4 timestamp oid _ IH Hfresh
                  |db video_id current_user _ IH].
  - apply NoDup_nil_2.
  - destruct (register_users user salt uuid4 created_at oid issued_at db)
      as [_ [Hsame|[Hnew Happ]]]; unfold user_emails in *.
    + by rewrite Hsame.
    + rewrite Happ, fmap_app. apply NoDup_app. split_and!; [done| |].
      * intros x Hx ->%list_elem_of_singleton. done.
      * apply NoDup_singleton.
  - by rewrite upload_video_run.
  - destruct (delete_video_cases video_id current_user db)
      as [(_ & -> & _)|(? & ? & ? & _ & _ & _ & ->)]; done.
Qed.

End Reachable.

Section VideoOwnership.
Context `{Crypto} `{FastAPI}.
Implicit Types (db : DB) (current_user caller : Stored User.t)
  (record : Stored VideoRecord.t).

(** What the two owner-scoped routes give back always belongs to the
    caller. *)
Lemma get_video_owned video_id caller db video :
  outcome (get_video video_id caller db) = inr video →
  VideoRecord.id video = video_id ∧
  VideoRecord.user_id video = User.id (doc caller) ∧
  ∃ record, record ∈ videos db ∧ doc record = video.
Proof.
  rewrite get_video_run; simpl.
  destruct (find_one _ _) as [v|] eqn:E; [|done]. intros [= <-].
  apply find_one_Some in E as [[? ?] ?]. eauto.
Qed.

Lemma foreign_record_misses db record caller :
  unique_video_ids db → record ∈ videos db →
  User.id (doc caller) ≠ VideoRecord.user_id (doc record) →
  ∀ other, other ∈ videos db →
    ¬ by_id_and_user_id (VideoRecord.id (doc record)) (User.id (doc caller))
        other.
Proof.
  intros Hnd Hrecord Hforeign other Hother [Hid Huser].
  assert (other = record) as -> by (by eapply unique_video_ids_inj).
  congruence.
Qed.

Lemma absent_id_misses db absent caller :
  absent ∉ video_ids db →
  ∀ other, other ∈ videos db →
    ¬ by_id_and_user_id absent (User.id (doc caller)) other.
Proof.
  intros Habsent other Hother [Hid _]. apply Habsent.
  unfold video_ids. apply list_elem_of_fmap. by exists other.
Qed.

(** C1.  In a store with unique video identifiers, get-video and
    delete-video called on a record's id by a user other than its owner
    answer 404 "Video not found", exactly as for an id no record has, and
    leave the store alone; whatever get-video returns and whatever
    delete-video removes is owned by the caller. *)
Theorem C1_foreign_record_not_found db record caller :
  unique_video_ids db →
  record ∈ videos db →
  User.id (doc caller) ≠ VideoRecord.user_id (doc record) →
  let video_id := VideoRecord.id (doc record) in
  outcome (get_video video_id caller db)
    = inl {| status_code := 404; detail := "Video not found";
             headers := [] |} ∧
  outcome (delete_video video_id caller db)
    = inl {| status_code := 404; detail := "Video not found";
             headers := [] |} ∧
  db_after (get_video video_id caller db) = db ∧
  db_after (delete_video video_id caller db) = db ∧
  (∀ absent, absent ∉ video_ids db →
     outcome (get_video absent caller db)
       = outcome (get_video video_id caller db) ∧
     outcome (delete_video absent caller db)
       = outcome (delete_video video_id caller db)) ∧
  (∀ any_id any_caller video,
     outcome (get_video any_id any_caller db) = inr video →
     VideoRecord.user_id video = User.id (doc any_caller)) ∧
  (∀ any_id any_caller message,
     outcome (delete_video any_id any_caller db) = inr message →
     ∃ before removed after,
       videos db = before ++ removed :: after ∧
       videos (db_after (delete_video any_id any_caller db))
         = before ++ after ∧
       VideoRecord.id (doc removed) = any_id ∧
       VideoRecord.user_id (doc removed) = User.id (doc any_caller)).
Proof.
  intros Hnd Hrecord Hforeign video_id. subst video_id.
  pose proof (foreign_record_misses db record caller Hnd Hrecord Hforeign)
    as Hmiss.
  assert (Hget : outcome (get_video (VideoRecord.id (doc record)) caller db)
                 = inl not_found).
  { rewrite get_video_run; simpl.
    by rewrite (proj2 (find_one_None _ _) Hmiss). }
  split_and!.
  - exact Hget.
  - by rewrite delete_video_miss.
  - by rewrite get_video_run.
  - by rewrite delete_video_miss.
  - intros absent Habsent.
    pose proof (absent_id_misses db absent caller Habsent) as Hmiss'.
    rewrite Hget, !delete_video_miss by done. split; [|done].
    rewrite get_video_run; simpl.
    by rewrite (proj2 (find_one_None _ _) Hmiss').
  - intros any_id any_caller video Hv.
    by apply get_video_owned in Hv as (_ & ? & _).
  - intros any_id any_caller message.
    destruct (delete_video_cases any_id any_caller db)
      as [(-> & _)|(before & removed & after & Hsplit & [? ?] & _ & ->)];
      [done|].
    intros _. by exists before, removed, after.
Qed.

(** C6.  In a store with unique video identifiers: when the caller owns a
    record with the given id, delete-video answers 200, removes that
    record and no other, and afterwards neither get-video nor the
    caller's listing shows the id; when the caller owns no such record,
    delete-video answers 404 and the store is unchanged. *)
Theorem C6_delete_video db caller video_id :
  unique_video_ids db →
  let r := delete_video video_id caller db in
  (∀ record,
     record ∈ videos db →
     VideoRecord.id (doc record) = video_id →
     VideoRecord.user_id (doc record) = User.id (doc caller) →
     outcome r = inr {| Deleted.message := "Video deleted successfully" |} ∧
     response_status (outcome r) = 200 ∧
     users (db_after r) = users db ∧
     (∃ before after, videos db = before ++ record :: after ∧
                      videos (db_after r) = before ++ after) ∧
     (video_id ∉ video_ids (db_after r)) ∧
     outcome (get_video video_id caller (db_after r)) = inl not_found ∧
     (∀ listing,
        outcome (get_user_videos caller (db_after r)) = inr listing →
        video_id ∉ (VideoSummary.id <$> listing))) ∧
  ((∀ record, record ∈ videos db →
      ¬ (VideoRecord.id (doc record) = video_id ∧
         VideoRecord.user_id (doc record) = User.id (doc caller))) →
   outcome r = inl {| status_code := 404; detail := "Video not found";
                      headers := [] |} ∧
   response_status (outcome r) = 404 ∧
   db_after r = db).
Proof.
  intros Hnd r. subst r. split.
  - intros record Hrecord Hid Howner.
    destruct (delete_video_cases video_id caller db)
      as [(_ & _ & Hmiss)|(before & removed & after & Hsplit & [Hid' ?] & -> & ->)].
    { exfalso. by apply (Hmiss record). }
    assert (removed = record) as ->.
    { eapply unique_video_ids_inj; [done| |done|congruence].
      rewrite Hsplit. apply elem_of_app. right. left. }
    assert (Hgone : video_id ∉ video_ids
                      {| users := users db; videos := before ++ after |}).
    { revert Hnd. unfold unique_video_ids, video_ids. cbn [videos].
      rewrite Hsplit, !fmap_app, fmap_cons, Hid.
      rewrite NoDup_app, NoDup_cons.
      intros (_ & Hdisj & Hafter & _) [Hin|Hin]%elem_of_app; [|done].
      apply (Hdisj _ Hin). left. }
    split_and!; try done.
    + by exists before, after.
    + rewrite get_video_run. cbn [outcome].
      rewrite (proj2 (find_one_None _ _)); [done|].
      intros other Hother [Hoid _]. apply Hgone.
      unfold video_ids. apply list_elem_of_fmap. by exists other.
    + intros listing. rewrite get_user_videos_run. cbn [outcome].
      intros [= <-] (s & -> & (v & -> & Hv)%list_elem_of_fmap)%list_elem_of_fmap.
      apply Hgone. unfold video_ids. apply list_elem_of_fmap. exists v.
      split; [done|].
      apply (elem_of_sublist _ _ _ Hv).
      etrans; [apply sublist_take|]. apply sublist_filter.
  - intros Hmiss. by rewrite delete_video_miss.
Qed.

End VideoOwnership.

Section VideoUploadAndListing.
Context `{Crypto} `{FastAPI}.
Implicit Types (db : DB) (current_user : Stored User.t).

(** C10.  Upload stores any string as the payload, unchanged and
    unexamined: for every [video_data] the handler answers 200 with the
    drawn id and appends one record carrying exactly that string. *)
Theorem C10_upload_stores_any_string
    (video_data : string) location_lat location_lng phone_number
    current_user uuid4 timestamp oid db :
  let video := {| VideoUpload.video_data := video_data;
                  VideoUpload.location_lat := location_lat;
                  VideoUpload.location_lng := location_lng;
                  VideoUpload.phone_number := phone_number |} in
  let r := upload_video video current_user uuid4 timestamp oid db in
  outcome r = inr {| Uploaded.message := "Video uploaded successfully";
                     Uploaded.video_id := uuid4 |} ∧
  response_status (outcome r) = 200 ∧
  users (db_after r) = users db ∧
  ∃ stored,
    videos (db_after r) = videos db ++ [stored] ∧
    VideoRecord.video_data (doc stored) = video_data ∧
    VideoRecord.id (doc stored) = uuid4 ∧
    VideoRecord.user_id (doc stored) = User.id (doc current_user).
Proof.
  intros video r. subst r. rewrite upload_video_run.
  split_and!; try done. by eexists.
Qed.

(** C8.  When the drawn id is fresh, an upload answers 200 with a
    [video_id] under which get-video, called by the same user on the
    resulting store, returns a record whose [video_data] is the uploaded
    string. *)
Theorem C8_upload_then_get video current_user uuid4 timestamp oid db :
  fresh_video_id uuid4 db →
  let r := upload_video video current_user uuid4 timestamp oid db in
  ∃ resp,
    outcome r = inr resp ∧
    response_status (outcome r) = 200 ∧
    outcome (get_video (Uploaded.video_id resp) current_user (db_after r))
      = inr (new_record video (User.id (doc current_user)) uuid4 timestamp) ∧
    ∃ fetched,
      outcome (get_video (Uploaded.video_id resp) current_user (db_after r))
        = inr fetched ∧
      VideoRecord.video_data fetched = VideoUpload.video_data video.
Proof.
  intros Hfresh r. subst r. rewrite upload_video_run. cbn [outcome db_after].
  eexists. split; [done|]. cbn [Uploaded.video_id].
  assert (Hget :
    outcome (get_video uuid4 current_user
               {| users := users db;
                  videos := videos db
                    ++ [Build_Stored oid
                          (new_record video (User.id (doc current_user))
                             uuid4 timestamp)] |})
    = inr (new_record video (User.id (doc current_user)) uuid4 timestamp)).
  { rewrite get_video_run. cbn [outcome videos].
    rewrite find_one_app_miss.
    - unfold find_one. by rewrite filter_cons, decide_True.
    - apply find_one_None. by apply absent_id_misses. }
  split_and!; [done|exact Hget|]. eexists. split; [exact Hget|done].
Qed.

Lemma summary_of_with_video_data data record :
  summary_of (with_video_data data record) = summary_of record.
Proof. reflexivity. Qed.

Lemma owned_by_overwrite_payloads f user_id db :
  owned_by user_id (overwrite_payloads f db)
  = (λ v, with_video_data (f v) v) <$> owned_by user_id db.
Proof.
  unfold owned_by, find, overwrite_payloads. cbn [videos].
  induction (videos db) as [|v l IH]; [done|].
  rewrite fmap_cons, !filter_cons, IH.
  destruct (decide (by_user_id user_id v)) as [Hv|Hv].
  - by rewrite decide_True.
  - by rewrite decide_False.
Qed.

(** C5 (as the code has it).  The listing of a user who owns N records
    holds min(N, 1000) summaries: those of the user's first 1000 records in
    store order, each made of id, timestamp, location_lat, location_lng
    and phone_number.  It does not depend on any payload, and the store is
    not changed. *)
Theorem C5_listing_first_thousand current_user db :
  let r := get_user_videos current_user db in
  let mine := owned_by (User.id (doc current_user)) db in
  ∃ listing,
    outcome r = inr listing ∧
    db_after r = db ∧
    length listing = Nat.min (length mine) 1000 ∧
    ((length mine ≤ 1000)%nat → length listing = length mine) ∧
    listing = summary_of <$> take 1000 mine ∧
    (VideoSummary.id <$> listing) `sublist_of` video_ids db ∧
    ∀ f, outcome (get_user_videos current_user (overwrite_payloads f db))
         = outcome r.
Proof.
  intros r mine. subst r mine. rewrite get_user_videos_run.
  eexists. split; [done|]. cbn [outcome db_after].
  split_and!; try done.
  - rewrite length_fmap, length_take. lia.
  - intros Hle. rewrite length_fmap, length_take. lia.
  - rewrite <- list_fmap_compose. unfold video_ids.
    etrans; [|apply fmap_sublist, (sublist_filter
                (by_user_id (User.id (doc current_user))))].
    apply fmap_sublist, sublist_take.
  - intros f. rewrite get_user_videos_run. cbn [outcome]. f_equal.
    rewrite owned_by_overwrite_payloads, <- fmap_take, <- list_fmap_compose.
    by apply list_fmap_ext.
Qed.

End VideoUploadAndListing.

(** * Routes behind the gate *)

Section ProtectedRoutes.
Context `{Crypto} `{FastAPI}.
Implicit Types (db : DB) (now : Z).

Lemma authenticate_bearer token now db :
  authenticate (bearer token) now db
  = get_current_user {| scheme := "Bearer"; credentials := token |} now db.
Proof.
  unfold authenticate, bearer, security, bind. simpl.
  by destruct (get_current_user _ now db) as [[e|u] d c].
Qed.

Lemma security_db authorization db : db_after (security authorization db) = db.
Proof.
  unfold security.
  destruct authorization as [[s [param|]]|]; simpl;
    repeat case_bool_decide; done.
Qed.

Lemma authenticate_db authorization now db :
  db_after (authenticate authorization now db) = db.
Proof.
  unfold authenticate, bind.
  pose proof (security_db authorization db) as Hdb.
  destruct (security authorization db) as [[e|creds] d c]; simpl in *; subst.
  - done.
  - apply get_current_user_db.
Qed.

Lemma security_calls authorization db : calls (security authorization db) = [].
Proof.
  unfold security.
  destruct authorization as [[s [param|]]|]; simpl;
    repeat case_bool_decide; done.
Qed.

Lemma get_current_user_calls creds now db :
  calls (get_current_user creds now db) = [] ∨
  ∃ email, calls (get_current_user creds now db) = [users_find_one email].
Proof.
  unfold get_current_user.
  destruct (jwt_decode _ _ _ _) as [?|p]; [by left|].
  destruct (sub p) as [email|]; [|by left]. right. exists email.
  unfold bind; simpl. by destruct (find_one _ _).
Qed.

Lemma authenticate_calls authorization now db :
  calls (authenticate authorization now db) = [] ∨
  ∃ email, calls (authenticate authorization now db) = [users_find_one email].
Proof.
  unfold authenticate, bind.
  pose proof (security_calls authorization db) as Hc.
  destruct (security authorization db) as [[e|creds] d c]; simpl in *.
  - by left.
  - subst c. simpl. apply get_current_user_calls.
Qed.

Lemma Depends_authenticated
    {A} (endpoint : Stored User.t → Handler A) authorization now db current_user :
  outcome (authenticate authorization now db) = inr current_user →
  let r := Depends_get_current_user endpoint authorization now db in
  outcome r = outcome (endpoint current_user db) ∧
  db_after r = db_after (endpoint current_user db) ∧
  calls r = calls (authenticate authorization now db)
            ++ calls (endpoint current_user db).
Proof.
  intros Hu r. subst r. unfold Depends_get_current_user, bind.
  rewrite Hu. simpl. by rewrite authenticate_db.
Qed.

(** X1.  A route behind [Depends(get_current_user)] whose authentication
    fails answers with the gate's exception, 401 or 403, without running
    its endpoint: the store is unchanged and at most one lookup in the
    users collection was made.  When authentication succeeds the response
    is the endpoint's, run for the resolved user on the same store. *)
Theorem X1_route_runs_only_when_authenticated
    {A} (endpoint : Stored User.t → Handler A) authorization now db :
  let gate := authenticate authorization now db in
  let r := Depends_get_current_user endpoint authorization now db in
  (∀ e, outcome gate = inl e →
     outcome r = inl e ∧
     (status_code e = 401 ∨ status_code e = 403) ∧
     db_after r = db ∧
     calls r = calls gate ∧
     (calls r = [] ∨ ∃ email, calls r = [users_find_one email])) ∧
  (∀ current_user, outcome gate = inr current_user →
     outcome r = outcome (endpoint current_user db) ∧
     db_after r = db_after (endpoint current_user db) ∧
     calls r = calls gate ++ calls (endpoint current_user db)).
Proof.
  intros gate r. subst gate r. unfold Depends_get_current_user, bind.
  pose proof (authenticate_db authorization now db) as Hdb.
  pose proof (authenticate_calls authorization now db) as Hcalls.
  split.
  - intros e He. rewrite He. simpl. split_and!; try done.
    apply authenticate_raises in He as [->|[->| ->]].
    + apply not_authenticated_status.
    + apply invalid_scheme_status.
    + by left.
  - intros current_user Hu. rewrite Hu. simpl. by rewrite Hdb.
Qed.

Lemma get_current_user_encoded data delta t0 scheme now db :
  let expire :=
    match delta with
    | Some d => if bool_decide (d ≠ 0) then t0 + d
                else t0 + timedelta_minutes 15
    | None => t0 + timedelta_minutes 15
    end in
  outcome (get_current_user
             {| scheme := scheme;
                credentials := create_access_token data delta t0 |} now db)
  = if (timegm expire <? timegm now)%Z then inl credentials_exception
    else match sub data with
         | Some email =>
             match find_one (by_email email) (users db) with
             | Some user => inr user
             | None => inl credentials_exception
             end
         | None => inl credentials_exception
         end.
Proof.
  intros expire.
  set (creds := {| scheme := scheme;
                   credentials := create_access_token data delta t0 |}).
  assert (Hdec : jwt_decode (credentials creds) SECRET_KEY [ALGORITHM] now
                 = if (timegm expire <? timegm now)%Z
                   then inl ExpiredSignatureError
                   else inr {| sub := sub data; exp := Some (timegm expire) |}).
  { unfold creds, create_access_token, jwt_encode, jwt_decode.
    cbn [credentials exp sub].
    case_decide as Ha; [|by destruct Ha; apply list_elem_of_singleton].
    by case_decide. }
  destruct (timegm expire <? timegm now)%Z.
  - by rewrite (get_current_user_refused creds now db _ Hdec).
  - rewrite (get_current_user_decoded creds now db _ Hdec). simpl.
    destruct (sub data); [|done]. by destruct (find_one _ _).
Qed.

(** X2.  Lifetime of the tokens [create_access_token] makes.  Without a
    delta, and also with a zero delta, the token lives 15 minutes.  With a
    non-zero delta [d] the gate resolves the token to the stored user of
    its subject up to the whole second of issue time plus [d] and rejects
    it afterwards; a delta of minus one second or less gives a token that
    is rejected already at its issue time.  An ["exp"] in the data is
    overwritten, and data without ["sub"] gives a token that never
    authenticates.  All of this is for an issue time, a delta and an
    expiry that [datetime] and [timedelta] can hold: outside of that the
    addition raises and there is no token. *)
Theorem X2_create_access_token_lifetime data t0 scheme db :
  valid_datetime t0 →
  valid_datetime (t0 + timedelta_minutes 15) →
  let gate delta now :=
    outcome (get_current_user
               {| scheme := scheme;
                  credentials := create_access_token data delta t0 |} now db) in
  create_access_token data None t0
    = create_access_token data (Some (timedelta_minutes 15)) t0 ∧
  create_access_token data (Some 0) t0
    = create_access_token data (Some (timedelta_minutes 15)) t0 ∧
  create_access_token data (Some 0) t0
    = create_access_token {| sub := sub data; exp := None |} None t0 ∧
  (∀ d email user now,
     valid_timedelta d → valid_datetime (t0 + d) → valid_datetime now →
     d ≠ 0 → sub data = Some email →
     find_one (by_email email) (users db) = Some user →
     (timegm now ≤ timegm (t0 + d) → gate (Some d) now = inr user) ∧
     (timegm (t0 + d) < timegm now →
        gate (Some d) now = inl credentials_exception)) ∧
  (∀ d, valid_timedelta d → valid_datetime (t0 + d) →
     d ≤ -1000000 → gate (Some d) t0 = inl credentials_exception) ∧
  (∀ delta now,
     (∀ d, delta = Some d → valid_timedelta d ∧ valid_datetime (t0 + d)) →
     valid_datetime now →
     sub data = None →
     gate delta now = inl credentials_exception).
Proof.
  intros _ _ gate. subst gate. cbv beta. split_and!; try reflexivity.
  - intros d email user now _ _ _ Hd Hsub Huser.
    rewrite (get_current_user_encoded data (Some d) t0 scheme now db).
    rewrite bool_decide_eq_true_2 by done. rewrite Hsub, Huser.
    split; intros Ht; by destruct (Z.ltb_spec (timegm (t0 + d)) (timegm now));
      try lia.
  - intros d _ _ Hd.
    rewrite (get_current_user_encoded data (Some d) t0 scheme t0 db).
    rewrite bool_decide_eq_true_2 by lia.
    assert (timegm (t0 + d) < timegm t0) by (apply timegm_next_second; lia).
    by destruct (Z.ltb_spec (timegm (t0 + d)) (timegm t0)); [|lia].
  - intros delta now _ _ Hsub.
    rewrite (get_current_user_encoded data delta t0 scheme now db), Hsub.
    by destruct (_ <? _)%Z.
Qed.

(** X3.  [/me] after login.  With the token a successful login returned,
    presented as a Bearer header at any time up to the whole second of its
    expiry, [/me] answers 200 with the id, email, phone and creation time
    of the account the login checked the password against, and its email
    is the one that was logged in with.  The store is not changed. *)
Theorem X3_me_after_login user issued_at resp now db :
  outcome (login user issued_at db) = inr resp →
  timegm now
    ≤ timegm (issued_at + timedelta_minutes ACCESS_TOKEN_EXPIRE_MINUTES) →
  let r := route_me (bearer (access_token resp)) now db in
  ∃ db_user,
    find_one (by_email (UserLogin.email user)) (users db) = Some db_user ∧
    outcome r = inr {| UserInfo.id := User.id (doc db_user);
                       UserInfo.email := UserLogin.email user;
                       UserInfo.phone := User.phone (doc db_user);
                       UserInfo.created_at := User.created_at (doc db_user) |} ∧
    response_status (outcome r) = 200 ∧
    db_after r = db.
Proof.
  intros Hlogin Hnow r. subst r. revert Hlogin. rewrite login_run; simpl.
  destruct (find_one _ _) as [u|] eqn:Hu; [|done].
  destruct (verify_password _ _) as [[|]|]; [|done|done]. intros [= <-]. simpl.
  destruct (issued_token_window _ issued_at u db Hu) as (_ & _ & Hemail & Hwin).
  destruct (Hwin "Bearer" now db (reflexivity _)) as (Hok & _).
  specialize (Hok Hnow). simpl in Hok.
  exists u. split; [done|].
  rewrite <- authenticate_bearer in Hok.
  destruct (Depends_authenticated get_current_user_info _ now db u Hok)
    as (Hout & Hdb & _).
  unfold route_me. rewrite Hout, Hdb. simpl. by rewrite Hemail.
Qed.

End ProtectedRoutes.

(** * Accounts over time *)

Section AccountsOverTime.
Context `{Crypto} `{FastAPI}.
Implicit Types (db : DB) (now : Z).

Lemma NoDup_fmap_elem_inj {A B} (f : A → B) (l : list A) x y :
  NoDup (f <$> l) → x ∈ l → y ∈ l → f x = f y → x = y.
Proof.
  intros Hnd [i Hi]%list_elem_of_lookup [j Hj]%list_elem_of_lookup Hf.
  assert (i = j) as ->; [|congruence].
  eapply NoDup_lookup; [exact Hnd| |].
  - rewrite list_lookup_fmap, Hi. reflexivity.
  - rewrite list_lookup_fmap, Hj. simpl. by rewrite Hf.
Qed.

Lemma find_one_unique {A B} (f : A → B) (P : A → Prop)
    `{!∀ x, Decision (P x)} (l : list A) x :
  NoDup (f <$> l) → x ∈ l → P x → (∀ y, P y → f y = f x) →
  find_one P l = Some x.
Proof.
  intros Hnd Hx HP Hf.
  destruct (find_one_is_Some P l x Hx HP) as [y Hy].
  rewrite Hy. f_equal. apply find_one_Some in Hy as [HPy Hy].
  eapply (NoDup_fmap_elem_inj f); eauto.
Qed.


(** X5.  Emails stay unique.  In every store the service reaches from the
    empty one, no two accounts have the same email, and each stored account
    is the account that its email resolves to, for login and for the
    gate. *)
Theorem X5_reachable_emails_unique db :
  reachable db →
  NoDup (user_emails db) ∧
  (∀ u1 u2, u1 ∈ users db → u2 ∈ users db →
            User.email (doc u1) = User.email (doc u2) → u1 = u2) ∧
  (∀ u, u ∈ users db →
        find_one (by_email (User.email (doc u))) (users db) = Some u).
Proof.
  intros Hnd%reachable_unique_emails. split_and!; [done| |].
  - intros u1 u2. by apply (NoDup_fmap_elem_inj (λ u, User.email (doc u))).
  - intros u Hu.
    apply (find_one_unique (λ u, User.email (doc u))); try done.
Qed.

(** X6.  Every stored video can be fetched.  In every store reached with
    fresh video ids, identifiers are unique, and get-video called with a
    record's id by a user whose id is the record's [user_id] returns
    exactly that record. *)
Theorem X6_reachable_records_fetchable db :
  reachable db →
  unique_video_ids db ∧
  ∀ record owner,
    record ∈ videos db →
    User.id (doc owner) = VideoRecord.user_id (doc record) →
    outcome (get_video (VideoRecord.id (doc record)) owner db)
    = inr (doc record).
Proof.
  intros Hnd%reachable_unique_video_ids. split; [done|].
  intros record owner Hrecord Howner. rewrite get_video_run. cbn [outcome].
  rewrite (find_one_unique (λ v, VideoRecord.id (doc v)) _ _ record);
    try done.
  - by intros y [? _].
Qed.

End AccountsOverTime.

(** * Videos over time *)

Section VideosOverTime.
Context `{Crypto} `{FastAPI}.
Implicit Types (db : DB) (caller other current_user : Stored User.t)
  (record : Stored VideoRecord.t).

Lemma owned_by_upload user_id video current_user uuid4 timestamp oid db :
  owned_by user_id
    (db_after (upload_video video current_user uuid4 timestamp oid db))
  = owned_by user_id db
    ++ (if decide (User.id (doc current_user) = user_id)
        then [Build_Stored oid
                (new_record video (User.id (doc current_user)) uuid4 timestamp)]
        else []).
Proof.
  rewrite upload_video_run. unfold owned_by, find. cbn [db_after videos].
  rewrite filter_app, filter_cons, filter_nil. unfold by_user_id at 2.
  cbn [doc new_record VideoRecord.user_id].
  by destruct (decide (User.id (doc current_user) = user_id)).
Qed.

Lemma owned_by_delete user_id video_id caller db :
  User.id (doc caller) ≠ user_id →
  owned_by user_id (db_after (delete_video video_id caller db))
  = owned_by user_id db.
Proof.
  intros Hne.
  destruct (delete_video_cases video_id caller db)
    as [(_ & -> & _)|(before & record & after & Hsplit & [_ Howner] & _ & ->)];
    [done|].
  unfold owned_by, find. cbn [videos]. rewrite Hsplit, !filter_app, filter_cons.
  rewrite decide_False; [done|]. unfold by_user_id. congruence.
Qed.

Lemma find_one_skip {A} (P : A → Prop) `{!∀ x, Decision (P x)}
    (before after : list A) x :
  ¬ P x → find_one P (before ++ x :: after) = find_one P (before ++ after).
Proof.
  intros Hx. unfold find_one.
  by rewrite !filter_app, filter_cons, decide_False.
Qed.

Lemma deleted_id_gone db before record after :
  unique_video_ids db →
  videos db = before ++ record :: after →
  VideoRecord.id (doc record)
    ∉ video_ids {| users := users db; videos := before ++ after |}.
Proof.
  unfold unique_video_ids, video_ids. cbn [videos]. intros Hnd Hsplit.
  revert Hnd. rewrite Hsplit, !fmap_app, fmap_cons, NoDup_app, NoDup_cons.
  intros (_ & Hdisj & Hafter & _) [Hin|Hin]%elem_of_app; [|done].
  apply (Hdisj _ Hin). left.
Qed.

(** X7.  A listing shows the caller's records only, and nobody else can
    change it: every summary comes from a stored record whose [user_id] is
    the caller's id, and an upload or a delete made by a user with another
    id leaves the caller's listing as it was. *)
Theorem X7_listing_isolated caller db :
  (∀ listing s,
     outcome (get_user_videos caller db) = inr listing → s ∈ listing →
     ∃ record, record ∈ videos db ∧
               VideoRecord.user_id (doc record) = User.id (doc caller) ∧
               s = summary_of record) ∧
  (∀ other video uuid4 timestamp oid,
     User.id (doc other) ≠ User.id (doc caller) →
     outcome (get_user_videos caller
                (db_after (upload_video video other uuid4 timestamp oid db)))
     = outcome (get_user_videos caller db)) ∧
  (∀ other video_id,
     User.id (doc other) ≠ User.id (doc caller) →
     outcome (get_user_videos caller
                (db_after (delete_video video_id other db)))
     = outcome (get_user_videos caller db)).
Proof.
  split; [|split].
  - intros listing s. rewrite get_user_videos_run. cbn [outcome].
    intros [= <-] (record & -> & Hrecord)%list_elem_of_fmap.
    exists record.
    pose proof (elem_of_sublist _ _ _ Hrecord (sublist_take _ _)) as Hmine.
    apply list_elem_of_filter in Hmine as [? ?]. done.
  - intros other video uuid4 timestamp oid Hne.
    rewrite !get_user_videos_run. cbn [outcome].
    rewrite owned_by_upload, decide_False by done. by rewrite app_nil_r.
  - intros other video_id Hne.
    rewrite !get_user_videos_run. cbn [outcome].
    by rewrite owned_by_delete.
Qed.

(** X8.  An upload and the caller's listing.  While the caller owns fewer
    than 1000 records, an upload appends the summary of the new record to
    the caller's listing; from 1000 owned records on, the listing stays as
    it was and does not show the new record. *)
Theorem X8_upload_extends_listing video caller uuid4 timestamp oid db :
  let mine := owned_by (User.id (doc caller)) db in
  let db' := db_after (upload_video video caller uuid4 timestamp oid db) in
  let added :=
    summary_of (Build_Stored oid
                  (new_record video (User.id (doc caller)) uuid4 timestamp)) in
  ∃ listing listing',
    outcome (get_user_videos caller db) = inr listing ∧
    outcome (get_user_videos caller db') = inr listing' ∧
    ((length mine < 1000)%nat → listing' = listing ++ [added]) ∧
    ((1000 ≤ length mine)%nat → listing' = listing ∧ length listing = 1000%nat).
Proof.
  intros mine db' added. subst mine db' added.
  rewrite !get_user_videos_run. cbn [outcome]. eexists _, _.
  split; [done|]. split; [done|].
  rewrite owned_by_upload, decide_True by done. split.
  - intros Hlt. rewrite take_app, !take_ge, fmap_app by (simpl; lia). done.
  - intros Hge. rewrite take_app_le by done. split; [done|].
    rewrite length_fmap, length_take. lia.
Qed.

(** X9.  An upload never hides an earlier record.  Whatever get-video
    returned before an upload it returns after it, also when the drawn id
    is one the store already has; and for any other id, or any other user,
    get-video answers after the upload as it did before. *)
Theorem X9_upload_keeps_earlier_records
    video uploader uuid4 timestamp oid db video_id caller :
  let db' := db_after (upload_video video uploader uuid4 timestamp oid db) in
  (∀ found, outcome (get_video video_id caller db) = inr found →
            outcome (get_video video_id caller db') = inr found) ∧
  (video_id ≠ uuid4 ∨ User.id (doc caller) ≠ User.id (doc uploader) →
   outcome (get_video video_id caller db')
   = outcome (get_video video_id caller db)).
Proof.
  intros db'. subst db'. rewrite upload_video_run, !get_video_run.
  cbn [outcome db_after videos]. split.
  - intros found.
    destruct (find_one _ (videos db)) as [v|] eqn:E; [|done].
    intros [= <-]. by rewrite (find_one_app_hit _ _ _ _ E).
  - intros Hother. unfold find_one. rewrite filter_app, filter_cons.
    rewrite decide_False, filter_nil, app_nil_r; [done|].
    intros [? ?]. simpl in *. destruct Hother; congruence.
Qed.

(** X10.  What a delete touches.  delete-video never changes the users
    collection; when it answers 404 the store is unchanged; when it
    succeeds the videos collection has exactly one document less and keeps
    the others in order; and get-video for any other id, or by any other
    user, answers as before. *)
Theorem X10_delete_footprint video_id caller db :
  let r := delete_video video_id caller db in
  users (db_after r) = users db ∧
  videos (db_after r) `sublist_of` videos db ∧
  (outcome r = inl not_found → db_after r = db) ∧
  (∀ message, outcome r = inr message →
     S (length (videos (db_after r))) = length (videos db)) ∧
  (∀ other_id other,
     other_id ≠ video_id ∨ User.id (doc other) ≠ User.id (doc caller) →
     outcome (get_video other_id other (db_after r))
     = outcome (get_video other_id other db)).
Proof.
  intros r. subst r.
  destruct (delete_video_cases video_id caller db)
    as [(Hout & Hdb & _)
       |(before & record & after & Hsplit & [Hid Howner] & Hout & Hdb)];
    rewrite Hout, Hdb.
  - split_and!; try done.
  - cbn [users videos]. split_and!; try done.
    + rewrite Hsplit. apply sublist_app; [done|]. by apply sublist_cons.
    + intros _ _. rewrite Hsplit, !length_app. simpl. lia.
    + intros other_id other Hother. rewrite !get_video_run.
      cbn [outcome videos]. rewrite Hsplit, find_one_skip; [done|].
      intros [? ?]. destruct Hother; congruence.
Qed.

(** X11.  get-video and delete-video agree.  On the same store, for the
    same id and caller, delete-video succeeds exactly when get-video does,
    and the document it removes is the one get-video returns. *)
Theorem X11_get_and_delete_agree video_id caller db :
  (∀ found,
     outcome (get_video video_id caller db) = inr found →
     ∃ before record after,
       doc record = found ∧
       videos db = before ++ record :: after ∧
       outcome (delete_video video_id caller db)
         = inr {| Deleted.message := "Video deleted successfully" |} ∧
       videos (db_after (delete_video video_id caller db)) = before ++ after) ∧
  (outcome (get_video video_id caller db) = inl not_found ↔
   outcome (delete_video video_id caller db) = inl not_found).
Proof.
  rewrite get_video_run. cbn [outcome].
  destruct (find_one _ (videos db)) as [v|] eqn:E.
  - apply find_one_first in E as (before & after & Hsplit & Hv & Hbefore).
    rewrite (delete_video_hit video_id caller db before v after) by done.
    split; [|done].
    intros found [= <-]. by exists before, v, after.
  - rewrite delete_video_miss by (by apply (proj1 (find_one_None _ _))). done.
Qed.

(** X12.  Deleting twice.  In a store with unique video ids, a second
    delete-video for the same id by the same caller answers 404 and changes
    nothing, whether the first one succeeded or not; the ids stay
    unique. *)
Theorem X12_second_delete_not_found video_id caller db :
  unique_video_ids db →
  let db1 := db_after (delete_video video_id caller db) in
  outcome (delete_video video_id caller db1) = inl not_found ∧
  db_after (delete_video video_id caller db1) = db1 ∧
  unique_video_ids db1.
Proof.
  intros Hnd db1. subst db1.
  pose proof (unique_video_ids_delete video_id caller db Hnd) as Hnd1.
  destruct (delete_video_cases video_id caller db)
    as [(_ & Hdb & Hmiss)
       |(before & record & after & Hsplit & [Hid _] & _ & Hdb)];
    rewrite Hdb in *.
  - by rewrite delete_video_miss.
  - pose proof (deleted_id_gone db before record after Hnd Hsplit) as Hgone.
    rewrite delete_video_miss; [done|].
    intros other Hother [Hoid _]. apply Hgone.
    unfold video_ids. apply list_elem_of_fmap. exists other.
    split; [congruence|done].
Qed.

(** X13.  Every listed id can be fetched.  For each summary in the caller's
    listing, get-video with the summary's id answers the caller with a
    record of that id that the caller owns. *)
Theorem X13_listed_ids_fetchable caller db listing s :
  outcome (get_user_videos caller db) = inr listing →
  s ∈ listing →
  ∃ found,
    outcome (get_video (VideoSummary.id s) caller db) = inr found ∧
    VideoRecord.id found = VideoSummary.id s ∧
    VideoRecord.user_id found = User.id (doc caller).
Proof.
  rewrite get_user_videos_run. cbn [outcome].
  intros [= <-] (record & -> & Hrecord)%list_elem_of_fmap.
  pose proof (elem_of_sublist _ _ _ Hrecord (sublist_take _ _)) as Hmine.
  apply list_elem_of_filter in Hmine as [Howner Hin].
  rewrite get_video_run. cbn [outcome VideoSummary.id summary_of].
  destruct (find_one_is_Some
              (by_id_and_user_id (VideoRecord.id (doc record))
                 (User.id (doc caller))) (videos db) record Hin)
    as [v Hv]; [done|].
  rewrite Hv. apply find_one_Some in Hv as [[? ?] _]. by exists (doc v).
Qed.

End VideosOverTime.

(** * A whole session *)

Section Session.
Context `{Crypto} `{FastAPI}.
Implicit Types (db : DB) (now : Z).

Lemma Depends_rejected
    {A} (endpoint : Stored User.t → Handler A) authorization now db e :
  outcome (authenticate authorization now db) = inl e →
  let r := Depends_get_current_user endpoint authorization now db in
  outcome r = inl e ∧ db_after r = db.
Proof.
  intros He r. subst r. unfold Depends_get_current_user, bind.
  rewrite He. simpl. by rewrite authenticate_db.
Qed.

Lemma Depends_db_after
    {A} (endpoint : Stored User.t → Handler A) authorization now db :
  db_after (Depends_get_current_user endpoint authorization now db) = db ∨
  ∃ current_user,
    db_after (Depends_get_current_user endpoint authorization now db)
    = db_after (endpoint current_user db).
Proof.
  destruct (outcome (authenticate authorization now db)) as [e|u] eqn:E.
  - left. by apply (Depends_rejected endpoint) in E as [_ ?].
  - right. exists u. by apply (Depends_authenticated endpoint) in E as (_ & ? & _).
Qed.

(** X14.  What each route may change.  Login, [/me], the listing and
    get-video leave the store as it is, whether they succeed or fail.
    Register never touches the videos and only ever appends to the users;
    upload never touches the users and only ever appends to the videos;
    delete never touches the users and only ever removes from the videos.
    No route removes or rewrites an account. *)
Theorem X14_route_footprints db :
  (∀ user issued_at, db_after (login user issued_at db) = db) ∧
  (∀ authorization now,
     db_after (route_me authorization now db) = db ∧
     db_after (route_get_user_videos authorization now db) = db) ∧
  (∀ video_id authorization now,
     db_after (route_get_video video_id authorization now db) = db) ∧
  (∀ user salt uuid4 created_at oid issued_at,
     let db' := db_after (register user salt uuid4 created_at oid issued_at db) in
     videos db' = videos db ∧ users db `prefix_of` users db') ∧
  (∀ video uuid4 timestamp oid authorization now,
     let db' := db_after (route_upload_video video uuid4 timestamp oid
                            authorization now db) in
     users db' = users db ∧ videos db `prefix_of` videos db') ∧
  (∀ video_id authorization now,
     let db' := db_after (route_delete_video video_id authorization now db) in
     users db' = users db ∧ videos db' `sublist_of` videos db).
Proof.
  split_and!.
  - intros user issued_at. by rewrite login_run.
  - intros authorization now. split.
    + by destruct (Depends_db_after get_current_user_info authorization now db)
        as [?|[u ?]].
    + by destruct (Depends_db_after get_user_videos authorization now db)
        as [?|[u ?]].
  - intros video_id authorization now.
    destruct (Depends_db_after (get_video video_id) authorization now db)
      as [?|[u Hu]]; [done|].
    unfold route_get_video. rewrite Hu. by rewrite get_video_run.
  - intros user salt uuid4 created_at oid issued_at db'. subst db'.
    destruct (register_users user salt uuid4 created_at oid issued_at db)
      as [Hv [Hu|[_ Hu]]]; rewrite Hu; split; try done.
    by eexists.
  - intros video uuid4 timestamp oid authorization now db'. subst db'.
    unfold route_upload_video.
    destruct (Depends_db_after
                (λ u, upload_video video u uuid4 timestamp oid)
                authorization now db) as [->|[u ->]]; [done|].
    rewrite upload_video_run. cbn [db_after users videos].
    split; [done|]. by eexists.
  - intros video_id authorization now db'. subst db'.
    unfold route_delete_video.
    destruct (Depends_db_after (delete_video video_id) authorization now db)
      as [->|[u ->]]; [done|].
    destruct (delete_video_cases video_id u db)
      as [(_ & -> & _)|(before & record & after & Hsplit & _ & _ & ->)];
      [done|].
    cbn [users videos]. split; [done|].
    rewrite Hsplit. apply sublist_app; [done|]. by apply sublist_cons.
Qed.

(** X15.  A whole session, as the test script drives it.  On a store where
    the email is free, with a hasher that verifies the password it has
    just hashed, a fresh video id and fewer than 1000 records under the
    new account's id: registration then login succeed, and with the login
    token, at any time up to the whole second of its expiry, [/me] shows
    the account; the upload answers with the drawn id; the listing then
    shows that id and get-video returns the uploaded payload; the delete
    succeeds; afterwards the listing no longer shows the id, get-video
    answers 404, and the videos collection is back to what it was. *)
Theorem X15_session_walkthrough
    user salt user_id created_at user_oid registered_at logged_in_at
    video video_id timestamp video_oid db :
  (∀ u, u ∈ users db → User.email (doc u) ≠ UserCreate.email user) →
  bcrypt_verify (UserCreate.password user)
    (bcrypt_hash salt (UserCreate.password user)) = true →
  fresh_video_id video_id db →
  (length (owned_by user_id db) < 1000)%nat →
  let account :=
    Build_Stored user_oid (new_user user salt user_id created_at) in
  let db1 := db_after (register user salt user_id created_at user_oid
                         registered_at db) in
  let auth := bearer (issued_token (UserCreate.email user) logged_in_at) in
  let db2 := db_after (upload_video video account video_id timestamp
                         video_oid db1) in
  let db3 := db_after (delete_video video_id account db2) in
  response_status
    (outcome (register user salt user_id created_at user_oid registered_at db))
    = 200 ∧
  outcome (login {| UserLogin.email := UserCreate.email user;
                    UserLogin.password := UserCreate.password user |}
             logged_in_at db1)
    = inr {| access_token := issued_token (UserCreate.email user) logged_in_at;
             token_type := "bearer" |} ∧
  videos db3 = videos db ∧
  ∀ now,
    timegm now
      ≤ timegm (logged_in_at + timedelta_minutes ACCESS_TOKEN_EXPIRE_MINUTES) →
    outcome (route_me auth now db1)
      = inr {| UserInfo.id := user_id;
               UserInfo.email := UserCreate.email user;
               UserInfo.phone := UserCreate.phone user;
               UserInfo.created_at := created_at |} ∧
    outcome (route_upload_video video video_id timestamp video_oid auth now db1)
      = inr {| Uploaded.message := "Video uploaded successfully";
               Uploaded.video_id := video_id |} ∧
    db_after (route_upload_video video video_id timestamp video_oid
                auth now db1) = db2 ∧
    (∃ listing,
       outcome (route_get_user_videos auth now db2) = inr listing ∧
       video_id ∈ (VideoSummary.id <$> listing)) ∧
    (∃ found,
       outcome (route_get_video video_id auth now db2) = inr found ∧
       VideoRecord.video_data found = VideoUpload.video_data video) ∧
    outcome (route_delete_video video_id auth now db2)
      = inr {| Deleted.message := "Video deleted successfully" |} ∧
    db_after (route_delete_video video_id auth now db2) = db3 ∧
    (∃ listing,
       outcome (route_get_user_videos auth now db3) = inr listing ∧
       video_id ∉ (VideoSummary.id <$> listing)) ∧
    outcome (route_get_video video_id auth now db3) = inl not_found.
Proof.
  intros Hfree Hverify Hfresh Hfew account db1 auth db2 db3.
  assert (Hnone : find_one (by_email (UserCreate.email user)) (users db) = None)
    by (by apply find_one_None).
  assert (Hhash : is_Some (get_password_hash salt (UserCreate.password user)))
    by (by eapply verified_password_hashable).
  assert (Hdb1 : db1 = {| users := users db ++ [account];
                          videos := videos db |}).
  { unfold db1. by rewrite register_free. }
  assert (Hfind : find_one (by_email (UserCreate.email user)) (users db1)
                  = Some account).
  { rewrite Hdb1. cbn [users]. rewrite find_one_app_miss by done.
    unfold find_one. by rewrite filter_cons, decide_True. }
  set (record := Build_Stored video_oid
                   (new_record video user_id video_id timestamp)).
  assert (Hdb2 : db2 = {| users := users db1;
                          videos := videos db ++ [record] |}).
  { unfold db2. rewrite upload_video_run. by rewrite Hdb1. }
  assert (Hmatch : by_id_and_user_id video_id (User.id (doc account)) record)
    by done.
  assert (Hearlier : ∀ earlier, earlier ∈ videos db →
            ¬ by_id_and_user_id video_id (User.id (doc account)) earlier)
    by (by apply absent_id_misses).
  assert (Hdb3 : db3 = {| users := users db1; videos := videos db |}).
  { unfold db3.
    rewrite (delete_video_hit video_id account db2 (videos db) record [])
      by (by rewrite ?Hdb2).
    rewrite Hdb2. cbn [db_after users]. by rewrite app_nil_r. }
  assert (Hdelete : outcome (delete_video video_id account db2)
            = inr {| Deleted.message := "Video deleted successfully" |}).
  { by rewrite (delete_video_hit video_id account db2 (videos db) record [])
      by (by rewrite ?Hdb2). }
  split_and!.
  - unfold db1 in Hdb1. by rewrite register_free.
  - rewrite login_run. cbn [outcome UserLogin.email UserLogin.password].
    rewrite Hfind. cbn. unfold verify_password.
    by rewrite Hverify.
  - by rewrite Hdb3.
  - intros now Hnow.
    destruct (issued_token_window _ logged_in_at account db1 Hfind)
      as (_ & _ & _ & Hwindow).
    assert (Hgate : ∀ db', users db' = users db1 →
              outcome (authenticate auth now db') = inr account).
    { intros db' Husers. unfold auth. rewrite authenticate_bearer.
      destruct (Hwindow "Bearer" now db') as (Hok & _).
      - rewrite Husers. reflexivity.
      - by apply Hok. }
    assert (Hroute : ∀ A (endpoint : Stored User.t → Handler A) db',
              users db' = users db1 →
              outcome (Depends_get_current_user endpoint auth now db')
                = outcome (endpoint account db') ∧
              db_after (Depends_get_current_user endpoint auth now db')
                = db_after (endpoint account db')).
    { intros A endpoint db' Husers.
      by destruct (Depends_authenticated endpoint auth now db' account
                     (Hgate db' Husers)) as (? & ? & _). }
    assert (H2 : users db2 = users db1) by (by rewrite Hdb2).
    assert (H3 : users db3 = users db1) by (by rewrite Hdb3).
    assert (Hids : video_id ∉ video_ids db3).
    { rewrite Hdb3. exact Hfresh. }
    split_and!.
    + unfold route_me.
      destruct (Hroute _ get_current_user_info db1 eq_refl) as [-> _]. done.
    + unfold route_upload_video.
      by destruct (Hroute _ (λ u, upload_video video u video_id timestamp
                                    video_oid) db1 eq_refl) as [-> _].
    + unfold route_upload_video.
      by destruct (Hroute _ (λ u, upload_video video u video_id timestamp
                                    video_oid) db1 eq_refl) as [_ ->].
    + unfold route_get_user_videos.
      destruct (Hroute _ get_user_videos db2 H2) as [-> _].
      rewrite get_user_videos_run. cbn [outcome]. eexists. split; [done|].
      unfold db2. rewrite owned_by_upload, decide_True by done.
      assert (owned_by (User.id (doc account)) db1 = owned_by user_id db)
        as -> by (by rewrite Hdb1).
      rewrite take_app, !take_ge, !fmap_app by (simpl; lia).
      apply elem_of_app. right. by left.
    + unfold route_get_video.
      destruct (Hroute _ (get_video video_id) db2 H2) as [-> _].
      rewrite get_video_run, Hdb2. cbn [outcome videos].
      rewrite find_one_app_miss by (by apply find_one_None).
      unfold find_one. rewrite filter_cons, decide_True by done.
      by eexists.
    + unfold route_delete_video.
      by destruct (Hroute _ (delete_video video_id) db2 H2) as [-> _].
    + unfold route_delete_video.
      by destruct (Hroute _ (delete_video video_id) db2 H2) as [_ ->].
    + unfold route_get_user_videos.
      destruct (Hroute _ get_user_videos db3 H3) as [-> _].
      rewrite get_user_videos_run. cbn [outcome]. eexists. split; [done|].
      intros (s & -> & (v & -> & Hv)%list_elem_of_fmap)%list_elem_of_fmap.
      apply Hids. unfold video_ids. apply list_elem_of_fmap. exists v.
      split; [done|].
      apply (elem_of_sublist _ _ _ Hv).
      etrans; [apply sublist_take|]. apply sublist_filter.
    + unfold route_get_video.
      destruct (Hroute _ (get_video video_id) db3 H3) as [-> _].
      rewrite get_video_run. cbn [outcome].
      rewrite (proj2 (find_one_None _ _)); [done|].
      by apply absent_id_misses.
Qed.

End Session.

(** * The environment loader *)

Section EnvLoader.
Implicit Types (s line key value : string) (c : ascii)
  (env_vars : gmap string string).

Lemma load_env_line_assignment env_vars line :
  load_env_line env_vars line
  = match assignment line with
    | Some (key, value) => <[key := value]> env_vars
    | None => env_vars
    end.
Proof.
  unfold load_env_line, assignment.
  destruct (negb _ && negb _); [|done].
  by destruct (split_once _ _) as [[key value]|].
Qed.

Lemma load_env_file_snoc lines line :
  load_env_file (Some (lines ++ [line]))
  = load_env_line (load_env_file (Some lines)) line.
Proof. unfold load_env_file. by rewrite foldl_app. Qed.

Lemma lstrip_head chars s c :
  head (chars_of (lstrip chars s)) = Some c → chars c = false.
Proof.
  induction s as [|a s IH]; simpl; [done|].
  destruct (chars a) eqn:Ha; [done|]. simpl. by intros [= <-].
Qed.

Lemma rstrip_last chars s c :
  last (chars_of (rstrip chars s)) = Some c → chars c = false.
Proof.
  induction s as [|a s IH]; simpl; [done|].
  destruct (rstrip chars s) as [|b kept] eqn:E.
  - destruct (chars a) eqn:Ha; simpl; [done|]. by intros [= <-].
  - simpl in *. exact IH.
Qed.

(** [rstrip] keeps a prefix, so a text that is not stripped away keeps its
    first character. *)
Lemma rstrip_head chars s :
  rstrip chars s = EmptyString ∨
  head (chars_of (rstrip chars s)) = head (chars_of s).
Proof.
  destruct s as [|a s]; [by left|]. simpl.
  destruct (rstrip chars s); [|by right].
  destruct (chars a); [by left|by right].
Qed.

Lemma lstrip_id chars s :
  (∀ c, head (chars_of s) = Some c → chars c = false) → lstrip chars s = s.
Proof.
  destruct s as [|a s]; [done|]. simpl. intros Hc.
  by rewrite (Hc a eq_refl).
Qed.

Lemma rstrip_id chars s :
  (∀ c, last (chars_of s) = Some c → chars c = false) → rstrip chars s = s.
Proof.
  induction s as [|a s IH]; [done|]. simpl. intros Hc.
  destruct s as [|b s].
  - simpl in *. by rewrite (Hc a eq_refl).
  - rewrite IH by done. done.
Qed.

Lemma append_nil_l s : "" +:+ s = s.
Proof. reflexivity. Qed.

Lemma append_cons c s t : String c s +:+ t = String c (s +:+ t).
Proof. reflexivity. Qed.

Lemma rstrip_all chars s :
  (∀ c, c ∈ chars_of s → chars c = true) → rstrip chars s = "".
Proof.
  induction s as [|a s IH]; [done|]. simpl. intros Hs.
  rewrite IH by (intros c Hc; apply Hs; by right).
  by rewrite (Hs a) by left.
Qed.

Lemma rstrip_app_stripped chars s t :
  (∀ c, c ∈ chars_of t → chars c = true) →
  rstrip chars (s +:+ t) = rstrip chars s.
Proof.
  intros Ht. induction s as [|a s IH].
  - rewrite append_nil_l. by apply rstrip_all.
  - rewrite append_cons. simpl. by rewrite IH.
Qed.

Lemma split_once_Some sep s key value :
  split_once sep s = Some (key, value) →
  s = key +:+ String sep value ∧ sep ∉ chars_of key.
Proof.
  revert key. induction s as [|a s IH]; intros key; simpl; [done|].
  destruct (Ascii.eqb_spec a sep) as [->|Hne].
  - intros [= <- <-]. split; [done|]. apply not_elem_of_nil.
  - destruct (split_once sep s) as [[k v]|]; [|done].
    intros [= <- <-]. destruct (IH k eq_refl) as [-> Hk].
    split; [reflexivity|]. simpl. apply not_elem_of_cons. done.
Qed.

Lemma split_once_None sep s : split_once sep s = None ↔ sep ∉ chars_of s.
Proof.
  induction s as [|a s IH]; simpl.
  - split; [intros _; apply not_elem_of_nil|done].
  - destruct (Ascii.eqb_spec a sep) as [->|Hne].
    + split; [done|]. intros Hn. destruct Hn. left.
    + rewrite not_elem_of_cons.
      destruct (split_once sep s) as [[k v]|]; split; try done.
      * intros [_ Hs]. by apply IH in Hs.
      * intros _. split; [done|]. by apply IH.
Qed.

Lemma split_once_app sep key value :
  sep ∉ chars_of key →
  split_once sep (key +:+ String sep value) = Some (key, value).
Proof.
  induction key as [|a key IH].
  - intros _. rewrite append_nil_l. simpl. by rewrite Ascii.eqb_refl.
  - intros Hk. simpl in Hk. apply not_elem_of_cons in Hk as [Hne Hk].
    rewrite append_cons. cbn [split_once].
    destruct (Ascii.eqb_spec a sep) as [->|_]; [done|]. by rewrite IH.
Qed.

Lemma chars_of_append s t : chars_of (s +:+ t) = chars_of s ++ chars_of t.
Proof.
  induction s as [|a s IH]; [done|]. rewrite append_cons. simpl. by rewrite IH.
Qed.

Lemma lstrip_chars chars s c : c ∈ chars_of (lstrip chars s) → c ∈ chars_of s.
Proof.
  induction s as [|a s IH]; simpl; [done|].
  destruct (chars a); [|done]. intros Hc. right. by apply IH.
Qed.

Lemma rstrip_chars chars s c : c ∈ chars_of (rstrip chars s) → c ∈ chars_of s.
Proof.
  induction s as [|a s IH]; simpl; [done|].
  destruct (rstrip chars s) as [|b kept].
  - destruct (chars a); simpl; [by intros ?%elem_of_nil|].
    intros ->%list_elem_of_singleton. left.
  - simpl in *. intros [->|Hc]%elem_of_cons; [left|right; by apply IH].
Qed.

Lemma isquote_not_space c : isquote c = true → isspace c = false.
Proof.
  unfold isquote. intros [Hc|Hc]%orb_true_iff;
    apply Ascii.eqb_eq in Hc as ->; reflexivity.
Qed.

Lemma prefix_hash c s :
  String.prefix "#" (String c s) = bool_decide (c = "#"%char).
Proof.
  cbn [String.prefix]. destruct (ascii_dec "#" c) as [<-|Hne].
  - by destruct s.
  - by rewrite bool_decide_eq_false_2 by congruence.
Qed.

Lemma snoc_eq_middle {A} (l before after : list A) (x mid : A) :
  l ++ [x] = before ++ mid :: after →
  (after = [] ∧ before = l ∧ mid = x) ∨
  (∃ after', after = after' ++ [x] ∧ l = before ++ mid :: after').
Proof.
  destruct after as [|y after' _] using rev_ind.
  - intros [-> ->]%app_inj_tail. by left.
  - rewrite app_comm_cons, app_assoc. intros [-> ->]%app_inj_tail.
    right. by exists after'.
Qed.

Lemma elem_snoc_cases {A} (l : list A) (x y : A) :
  y ∈ l ++ [x] → y ∈ l ∨ y = x.
Proof.
  intros [Hy|Hy]%elem_of_app; [by left|right].
  by apply list_elem_of_singleton in Hy.
Qed.

Lemma elem_snoc_last {A} (l : list A) (x : A) : x ∈ l ++ [x].
Proof. apply elem_of_app. right. left. Qed.

Lemma elem_snoc_init {A} (l : list A) (x y : A) : y ∈ l → y ∈ l ++ [x].
Proof. intros Hy. apply elem_of_app. by left. Qed.

Lemma load_env_file_lookup_None lines key :
  load_env_file (Some lines) !! key = None ↔
  ∀ line, line ∈ lines → ∀ value, assignment line ≠ Some (key, value).
Proof.
  induction lines as [|x l IH] using rev_ind.
  - split; [|done]. by intros _ line ?%elem_of_nil.
  - rewrite load_env_file_snoc, load_env_line_assignment.
    destruct (assignment x) as [[k v]|] eqn:Ex;
      [destruct (decide (k = key)) as [->|Hne]|].
    + rewrite lookup_insert_eq. split; [done|].
      intros Hall. by destruct (Hall x (elem_snoc_last l x) v).
    + rewrite lookup_insert_ne, IH by done. split.
      * intros Hl line [Hin| ->]%elem_snoc_cases value; [by apply Hl|].
        rewrite Ex. congruence.
      * intros Hall line Hin. by apply Hall, elem_snoc_init.
    + rewrite IH. split.
      * intros Hl line [Hin| ->]%elem_snoc_cases value; [by apply Hl|].
        by rewrite Ex.
      * intros Hall line Hin. by apply Hall, elem_snoc_init.
Qed.

(** X16.  The last assignment wins.  After loading, a key has the value of
    the last line that assigns it, and a key is missing exactly when no
    line assigns it. *)
Theorem X16_load_env_last_assignment_wins lines key :
  (∀ value,
     load_env_file (Some lines) !! key = Some value ↔
     ∃ before line after,
       lines = before ++ line :: after ∧
       assignment line = Some (key, value) ∧
       ∀ later, later ∈ after → ∀ v, assignment later ≠ Some (key, v)) ∧
  (load_env_file (Some lines) !! key = None ↔
   ∀ line, line ∈ lines → ∀ v, assignment line ≠ Some (key, v)).
Proof.
  split; [|apply load_env_file_lookup_None].
  induction lines as [|x l IH] using rev_ind; intros value.
  - split; [done|]. intros (before & line & after & E & _). by destruct before.
  - rewrite load_env_file_snoc, load_env_line_assignment.
    assert (Hshift : ∀ before line after,
              l = before ++ line :: after →
              l ++ [x] = before ++ line :: (after ++ [x])).
    { intros before line after ->. by rewrite <- app_assoc. }
    assert (Hother : (∀ v, assignment x ≠ Some (key, v)) →
              (load_env_file (Some l) !! key = Some value ↔
               ∃ before line after,
                 l ++ [x] = before ++ line :: after ∧
                 assignment line = Some (key, value) ∧
                 ∀ later, later ∈ after →
                          ∀ v, assignment later ≠ Some (key, v))).
    { intros Hx. rewrite IH. split.
      - intros (before & line & after & E & Hline & Hafter).
        exists before, line, (after ++ [x]).
        split_and!; [by apply Hshift|done|].
        intros later [Hin| ->]%elem_snoc_cases; [by apply Hafter|done].
      - intros (before & line & after & E & Hline & Hafter).
        apply snoc_eq_middle in E as [(-> & -> & ->)|(after' & -> & ->)].
        + by destruct (Hx value).
        + exists before, line, after'. split_and!; [done..|].
          intros later Hin. by apply Hafter, elem_snoc_init. }
    destruct (assignment x) as [[k v]|] eqn:Ex;
      [destruct (decide (k = key)) as [->|Hne]|].
    + rewrite lookup_insert_eq. split.
      * intros [= <-]. exists l, x, []. split_and!; [done..|].
        by intros later ?%elem_of_nil.
      * intros (before & line & after & E & Hline & Hafter).
        apply snoc_eq_middle in E as [(-> & -> & ->)|(after' & -> & ->)].
        -- congruence.
        -- by destruct (Hafter x (elem_snoc_last after' x) v).
    + rewrite lookup_insert_ne by done. apply Hother.
      intros v'. congruence.
    + apply Hother. by intros v'.
Qed.

Lemma load_env_file_lookup_line lines key value :
  load_env_file (Some lines) !! key = Some value →
  ∃ line, line ∈ lines ∧ assignment line = Some (key, value).
Proof.
  induction lines as [|x l IH] using rev_ind; [done|].
  rewrite load_env_file_snoc, load_env_line_assignment.
  destruct (assignment x) as [[k v]|] eqn:Ex;
    [destruct (decide (k = key)) as [->|Hne]|].
  - rewrite lookup_insert_eq. intros [= <-]. exists x. split; [|done].
    apply elem_of_app. right. left.
  - rewrite lookup_insert_ne by done. intros (line & ? & ?)%IH.
    exists line. split; [|done]. apply elem_of_app. by left.
  - intros (line & ? & ?)%IH.
    exists line. split; [|done]. apply elem_of_app. by left.
Qed.

Lemma assignment_shape line key value :
  assignment line = Some (key, value) →
  ("="%char ∉ chars_of key) ∧
  (∀ c, head (chars_of key) = Some c → isspace c = false ∧ c ≠ "#"%char) ∧
  (∀ c, head (chars_of value) = Some c → isquote c = false) ∧
  (∀ c, last (chars_of value) = Some c → isquote c = false).
Proof.
  unfold assignment. set (stripped := strip isspace line).
  destruct (negb _ && negb _) eqn:Hcond; [|done].
  apply andb_true_iff in Hcond as [_ Hhash%negb_true_iff].
  destruct (split_once _ _) as [[k raw]|] eqn:Hsplit; [|done].
  intros [= -> <-]. apply split_once_Some in Hsplit as [Hstripped Hkey].
  split_and!; [done| | |].
  - intros c Hc. destruct key as [|a key]; [done|]. simpl in Hc.
    injection Hc as ->.
    rewrite Hstripped, append_cons, prefix_hash in Hhash.
    apply bool_decide_eq_false in Hhash. split; [|done].
    destruct (rstrip_head isspace (lstrip isspace line)) as [Hempty|Hhead].
    + unfold stripped, strip in Hstripped. by rewrite Hempty in Hstripped.
    + apply (lstrip_head isspace line). rewrite <- Hhead.
      unfold stripped, strip in Hstripped. by rewrite Hstripped.
  - intros c Hc. unfold strip in Hc.
    destruct (rstrip_head isquote (lstrip isquote raw)) as [Hempty|Hhead].
    + by rewrite Hempty in Hc.
    + rewrite Hhead in Hc. by apply lstrip_head in Hc.
  - intros c Hc. by apply rstrip_last in Hc.
Qed.

(** X17.  The shape of what is loaded.  A loaded key contains no [=] and
    begins neither with white space nor with [#]; a loaded value neither
    begins nor ends with a quote character. *)
Theorem X17_load_env_entries_shape lines key value :
  load_env_file (Some lines) !! key = Some value →
  ("="%char ∉ chars_of key) ∧
  (∀ c, head (chars_of key) = Some c → isspace c = false ∧ c ≠ "#"%char) ∧
  (∀ c, head (chars_of value) = Some c → isquote c = false) ∧
  (∀ c, last (chars_of value) = Some c → isquote c = false).
Proof.
  intros (line & _ & Hline)%load_env_file_lookup_line.
  by apply assignment_shape in Hline.
Qed.

Lemma load_env_file_skip before line after :
  assignment line = None →
  load_env_file (Some (before ++ line :: after))
  = load_env_file (Some (before ++ after)).
Proof.
  intros Hnone. unfold load_env_file.
  rewrite !foldl_app. simpl.
  by rewrite load_env_line_assignment, Hnone.
Qed.

(** X18.  Lines that are skipped.  A line of white space only, a line
    whose first character after leading white space is [#], and a line
    without [=] assign nothing: the loader gives the same result with the
    line as without it. *)
Theorem X18_load_env_skips_blank_comment_and_plain_lines line :
  (∀ c, c ∈ chars_of line → isspace c = true) ∨
  head (chars_of (lstrip isspace line)) = Some "#"%char ∨
  "="%char ∉ chars_of line →
  assignment line = None ∧
  ∀ before after,
    load_env_file (Some (before ++ line :: after))
    = load_env_file (Some (before ++ after)).
Proof.
  intros Hline.
  assert (Hnone : assignment line = None);
    [|split; [done|]; intros; by apply load_env_file_skip].
  unfold assignment, strip. destruct Hline as [Hblank|[Hhash|Hplain]].
  - rewrite rstrip_all; [done|].
    intros c Hc. by apply Hblank, (lstrip_chars isspace).
  - destruct (lstrip isspace line) as [|a rest]; [done|].
    simpl in Hhash. injection Hhash as ->.
    assert (∃ kept, rstrip isspace (String "#" rest) = String "#" kept)
      as [kept ->].
    { simpl. destruct (rstrip isspace rest); by eexists. }
    by rewrite prefix_hash, bool_decide_eq_true_2.
  - destruct (negb _ && negb _); [|done].
    rewrite (proj2 (split_once_None _ _)); [done|].
    intros Hin. by apply Hplain, (lstrip_chars isspace), (rstrip_chars isspace).
Qed.

(** X19.  A quoted assignment is read back.  For a key without [=] that
    begins neither with white space nor with [#], and a value that neither
    begins nor ends with a quote character, the line made of the key, [=],
    the value between two quote characters and a line end of white space
    assigns exactly that value to that key. *)
Theorem X19_quoted_assignment_read_back key value open close line_end :
  "="%char ∉ chars_of key →
  (∀ c, head (chars_of key) = Some c → isspace c = false ∧ c ≠ "#"%char) →
  (∀ c, head (chars_of value) = Some c → isquote c = false) →
  (∀ c, last (chars_of value) = Some c → isquote c = false) →
  isquote open = true → isquote close = true →
  (∀ c, c ∈ chars_of line_end → isspace c = true) →
  let line :=
    (key +:+ String "=" (String open (value +:+ String close "")))
    +:+ line_end in
  assignment line = Some (key, value) ∧
  ∀ env_vars, load_env_line env_vars line !! key = Some value.
Proof.
  intros Hkey Hhead Hvhead Hvlast Hopen Hclose Hend line.
  assert (Hassign : assignment line = Some (key, value));
    [|split; [done|]; intros env_vars;
      by rewrite load_env_line_assignment, Hassign, lookup_insert_eq].
  set (core := key +:+ String "=" (String open (value +:+ String close ""))).
  assert (Hcore_head : ∀ c, head (chars_of core) = Some c →
                            isspace c = false ∧ c ≠ "#"%char).
  { intros c. unfold core. destruct key as [|a key].
    - rewrite append_nil_l. simpl. by intros [= <-].
    - rewrite append_cons. simpl. intros [= <-]. by apply Hhead. }
  assert (Hcore_last : ∀ c, last (chars_of core) = Some c → isspace c = false).
  { intros c. unfold core.
    rewrite chars_of_append. simpl. rewrite chars_of_append. simpl.
    rewrite !app_comm_cons, app_assoc, last_snoc. intros [= <-].
    by apply isquote_not_space. }
  assert (Hstrip : strip isspace line = core).
  { unfold strip, line. fold core.
    assert (lstrip isspace (core +:+ line_end) = core +:+ line_end) as ->.
    { apply lstrip_id. intros c. rewrite chars_of_append.
      destruct (chars_of core) as [|a l] eqn:E.
      - exfalso. unfold core in E. rewrite chars_of_append in E.
        by destruct (chars_of key).
      - simpl. intros [= <-]. by apply Hcore_head. }
    rewrite rstrip_app_stripped by done. by apply rstrip_id. }
  assert (Hvalue : strip isquote (String open (value +:+ String close ""))
                   = value).
  { unfold strip. simpl. rewrite Hopen.
    destruct value as [|a value].
    - rewrite append_nil_l. simpl. by rewrite Hclose.
    - rewrite lstrip_id.
      + rewrite rstrip_app_stripped.
        * by apply rstrip_id.
        * simpl. by intros c ->%list_elem_of_singleton.
      + rewrite append_cons. simpl. intros c [= <-]. by apply Hvhead. }
  unfold assignment. rewrite Hstrip.
  assert (String.eqb core "" = false) as ->.
  { apply String.eqb_neq. unfold core. by destruct key. }
  assert (String.prefix "#" core = false) as ->.
  { destruct core as [|a rest] eqn:E; [done|].
    rewrite prefix_hash. apply bool_decide_eq_false.
    by apply (Hcore_head a). }
  simpl. unfold core. rewrite split_once_app by done. by rewrite Hvalue.
Qed.

(** X20.  Where the tests point.  When the environment file is missing, or
    no line of it assigns EXPO_PUBLIC_BACKEND_URL, the API base is
    http://localhost:8001/api; otherwise it is the loaded value followed by
    /api. *)
Theorem X20_api_base_url_default f :
  (f = None ∨
   ∃ lines, f = Some lines ∧
     ∀ line, line ∈ lines →
       ∀ v, assignment line ≠ Some ("EXPO_PUBLIC_BACKEND_URL", v)) →
  API_BASE_URL (load_env_file f) = "http://localhost:8001/api".
Proof.
  unfold API_BASE_URL, BACKEND_URL.
  intros [->|(lines & -> & Hnone)]; [done|].
  by rewrite (proj2 (load_env_file_lookup_None _ _) Hnone).
Qed.

End EnvLoader.

(** * The statements at concrete requests *)

#[local] Existing Instance toy_crypto.
#[local] Existing Instance fastapi_legacy.

Lemma sample_db_unique : unique_video_ids sample_db.
Proof. unfold unique_video_ids. by compute_done. Qed.

Lemma C1_witness :
  unique_video_ids sample_db ∧
  alice_clip ∈ videos sample_db ∧
  User.id (doc bob) ≠ VideoRecord.user_id (doc alice_clip) ∧
  outcome (get_video "clip-1" bob sample_db) = inl not_found ∧
  outcome (delete_video "clip-1" bob sample_db) = inl not_found ∧
  db_after (delete_video "clip-1" bob sample_db) = sample_db.
Proof.
  assert (H1 : unique_video_ids sample_db) by exact sample_db_unique.
  assert (H2 : alice_clip ∈ videos sample_db) by (vm_compute; left).
  assert (H3 : User.id (doc bob) ≠ VideoRecord.user_id (doc alice_clip))
    by (vm_compute; discriminate).
  destruct (C1_foreign_record_not_found sample_db alice_clip bob H1 H2 H3)
    as (Hget & Hdel & _ & Hdb & _).
  split_and!; [exact H1|exact H2|exact H3|exact Hget|exact Hdel|exact Hdb].
Defined.

(** C2 fails as stated: a token that login issued at second 5 expires at
    second 1805, and the gate still resolves it to alice at the expiry and
    for the rest of that second. *)
Lemma C2_token_accepted_at_expiry :
  outcome (login alice_login 5000000 sample_db)
    = inr {| access_token := alice_token; token_type := "bearer" |} ∧
  5000000 + timedelta_minutes ACCESS_TOKEN_EXPIRE_MINUTES = 1805000000 ∧
  outcome (get_current_user alice_credentials 1805000000 sample_db)
    = inr alice ∧
  outcome (get_current_user alice_credentials 1805999999 sample_db)
    = inr alice ∧
  outcome (get_current_user alice_credentials 1805000000 sample_db)
    ≠ inl credentials_exception.
Proof. vm_compute. split_and!; done. Qed.

Lemma C2_witness :
  ∃ resp,
    outcome (login alice_login 5000000 sample_db) = inr resp ∧
    token_window resp "alice@example.com" 5000000 alice sample_db.
Proof.
  destruct (C2_token_honoured_through_expiry_second sample_db)
    as [Hlogin _].
  eexists. split; [vm_compute; reflexivity|].
  destruct (Hlogin alice_login 5000000 _ eq_refl) as (db_user & _ & Hwindow).
  assert (db_user = alice) as ->; [|exact Hwindow].
  destruct Hwindow as (_ & Hfind & _). vm_compute in Hfind.
  injection Hfind as <-. reflexivity.
Defined.



(** At a wrong password on which verification returns, login answers the
    registered and the unknown email alike. *)
Example login_wrong_password_uniform :
  verify_password (UserLogin.password alice_wrong_password)
    (User.hashed_password (doc alice)) = false ∧
  outcome (login alice_wrong_password 5000000 sample_db)
    = outcome (login carol_login 6000000 sample_db) ∧
  outcome (login alice_wrong_password 5000000 sample_db)
    = inl invalid_credentials.
Proof. vm_compute. split_and!; done. Qed.

Lemma C4_witness :
  find_one (by_email (UserLogin.email alice_nul_login)) (users sample_db)
    = Some alice ∧
  verify_password (UserLogin.password alice_nul_login)
    (User.hashed_password (doc alice)) = VerifyRaises ∧
  (∀ u, u ∈ users sample_db →
        User.email (doc u) ≠ UserLogin.email carol_nul_login) ∧
  UserLogin.password alice_nul_login = UserLogin.password carol_nul_login ∧
  outcome (login alice_nul_login 5000000 sample_db)
    = inl internal_server_error ∧
  response_status (outcome (login alice_nul_login 5000000 sample_db)) = 500 ∧
  outcome (login carol_nul_login 5000000 sample_db)
    = inl invalid_credentials ∧
  response_status (outcome (login carol_nul_login 5000000 sample_db)) = 401 ∧
  outcome (login alice_nul_login 5000000 sample_db)
    ≠ outcome (login carol_nul_login 5000000 sample_db).
Proof.
  assert (H1 : find_one (by_email (UserLogin.email alice_nul_login))
                 (users sample_db) = Some alice) by (vm_compute; reflexivity).
  assert (H2 : verify_password (UserLogin.password alice_nul_login)
                 (User.hashed_password (doc alice)) = VerifyRaises)
    by (vm_compute; reflexivity).
  assert (H3 : ∀ u, u ∈ users sample_db
                    → User.email (doc u) ≠ UserLogin.email carol_nul_login).
  { intros u Hu. vm_compute in Hu.
    apply elem_of_cons in Hu as [->|Hu]; [vm_compute; discriminate|].
    apply list_elem_of_singleton in Hu as ->. vm_compute; discriminate. }
  destruct (C4_login_failures_tell_registered_email alice_nul_login
              carol_nul_login 5000000 5000000 sample_db alice H1 H2 H3)
    as (Hout & Hstatus & Hout' & Hstatus' & Hdiff).
  split_and!;
    [exact H1|exact H2|exact H3|reflexivity|exact Hout|exact Hstatus
    |exact Hout'|exact Hstatus'|exact Hdiff].
Defined.

(** C5 fails as stated: alice owns 1001 clips and her listing has 1000. *)
Lemma C5_listing_misses_record_1001 :
  length (owned_by (User.id (doc alice)) crowded_db) = 1001%nat ∧
  "v1000" ∈ video_ids crowded_db ∧
  ∃ listing,
    outcome (get_user_videos alice crowded_db) = inr listing ∧
    length listing = 1000%nat ∧
    length listing ≠ length (owned_by (User.id (doc alice)) crowded_db) ∧
    "v1000" ∉ (VideoSummary.id <$> listing).
Proof.
  split_and!.
  - vm_compute. reflexivity.
  - by compute_done.
  - eexists. split; [reflexivity|]. split_and!.
    + vm_compute. reflexivity.
    + vm_compute. discriminate.
    + by compute_done.
Qed.

Lemma C5_witness :
  (length (owned_by (User.id (doc alice)) sample_db) ≤ 1000)%nat ∧
  outcome (get_user_videos alice sample_db) = inr [summary_of alice_clip] ∧
  outcome (get_user_videos alice
             (overwrite_payloads (λ _, "other bytes") sample_db))
    = inr [summary_of alice_clip].
Proof.
  assert (H1 : (length (owned_by (User.id (doc alice)) sample_db) ≤ 1000)%nat)
    by (vm_compute; lia).
  destruct (C5_listing_first_thousand alice sample_db)
    as (listing & Hout & _ & _ & Hlen & Hlist & _ & Hsame).
  specialize (Hlen H1). specialize (Hsame (λ _, "other bytes")).
  assert (listing = [summary_of alice_clip]) as -> by (rewrite Hlist; reflexivity).
  split_and!; [exact H1|exact Hout|by rewrite Hsame].
Defined.

Lemma C6_witness :
  unique_video_ids sample_db ∧
  alice_clip ∈ videos sample_db ∧
  response_status (outcome (delete_video "clip-1" alice sample_db)) = 200 ∧
  videos (db_after (delete_video "clip-1" alice sample_db)) = [bob_clip] ∧
  outcome (get_video "clip-1" alice
             (db_after (delete_video "clip-1" alice sample_db)))
    = inl not_found ∧
  (∀ record, record ∈ videos sample_db →
     ¬ (VideoRecord.id (doc record) = "clip-2" ∧
        VideoRecord.user_id (doc record) = User.id (doc alice))) ∧
  response_status (outcome (delete_video "clip-2" alice sample_db)) = 404 ∧
  db_after (delete_video "clip-2" alice sample_db) = sample_db.
Proof.
  assert (H1 : unique_video_ids sample_db) by exact sample_db_unique.
  assert (H2 : alice_clip ∈ videos sample_db) by (vm_compute; left).
  assert (H3 : ∀ record, record ∈ videos sample_db →
                 ¬ (VideoRecord.id (doc record) = "clip-2" ∧
                    VideoRecord.user_id (doc record) = User.id (doc alice))).
  { intros record Hr. vm_compute in Hr.
    apply elem_of_cons in Hr as [->|Hr]; [vm_compute; by intros [? _]|].
    apply list_elem_of_singleton in Hr as ->. vm_compute. by intros [_ ?]. }
  destruct (C6_delete_video sample_db alice "clip-1" H1) as [Hhit _].
  destruct (C6_delete_video sample_db alice "clip-2" H1) as [_ Hmiss].
  destruct (Hhit alice_clip H2 eq_refl eq_refl)
    as (_ & Hstatus & _ & _ & _ & Hget & _).
  destruct (Hmiss H3) as (_ & Hstatus' & Hdb).
  split_and!;
    [exact H1|exact H2|exact Hstatus|vm_compute; reflexivity|exact Hget
    |exact H3|exact Hstatus'|exact Hdb].
Defined.

Section CurrentFastAPI.
#[local] Existing Instance fastapi_current | 0.


End CurrentFastAPI.

Lemma C8_witness :
  fresh_video_id "clip-3" sample_db ∧
  outcome (upload_video new_clip alice "clip-3" 8000000 5 sample_db)
    = inr {| Uploaded.message := "Video uploaded successfully";
             Uploaded.video_id := "clip-3" |} ∧
  ∃ fetched,
    outcome (get_video "clip-3" alice
               (db_after (upload_video new_clip alice "clip-3" 8000000 5
                            sample_db))) = inr fetched ∧
    VideoRecord.video_data fetched = "bmV3IGNsaXA=".
Proof.
  assert (H1 : fresh_video_id "clip-3" sample_db) by (by compute_done).
  destruct (C8_upload_then_get new_clip alice "clip-3" 8000000 5 sample_db H1)
    as (resp & Hout & _ & _ & fetched & Hget & Hdata).
  injection Hout as <-.
  split_and!; [exact H1|reflexivity|].
  exists fetched. split; [exact Hget|exact Hdata].
Defined.

Lemma C9_witness :
  (∀ e, exp anonymous_claims = Some e → timegm 5000000 ≤ e) ∧
  sub anonymous_claims = None ∧
  get_current_user
    {| scheme := "Bearer";
       credentials := JWS ALGORITHM anonymous_claims
                        (hmac_sha256 SECRET_KEY (ALGORITHM, anonymous_claims)) |}
    5000000 sample_db
  = {| outcome := inl credentials_exception; db_after := sample_db;
       calls := [] |}.
Proof.
  assert (H1 : ∀ e, exp anonymous_claims = Some e → timegm 5000000 ≤ e).
  { intros e [= <-]. vm_compute. discriminate. }
  assert (H2 : sub anonymous_claims = None) by reflexivity.
  destruct (C9_missing_subject_rejected "Bearer" anonymous_claims 5000000
              sample_db H1 H2) as (_ & Hrun & _).
  split_and!; [exact H1|exact H2|exact Hrun].
Defined.

(** C10 at the empty string and at a string that is not base64. *)
Example upload_empty_payload :
  videos (db_after (upload_video
                      {| VideoUpload.video_data := "";
                         VideoUpload.location_lat := None;
                         VideoUpload.location_lng := None;
                         VideoUpload.phone_number := None |}
                      alice "clip-3" 8000000 5 sample_db))
  = [alice_clip; bob_clip;
     {| _id := 5;
        doc := {| VideoRecord.id := "clip-3";
                  VideoRecord.user_id := "u-alice";
                  VideoRecord.video_data := "";
                  VideoRecord.location_lat := None;
                  VideoRecord.location_lng := None;
                  VideoRecord.phone_number := None;
                  VideoRecord.timestamp := 8000000 |} |}].
Proof. reflexivity. Qed.

Example upload_not_base64 :
  outcome (upload_video
             {| VideoUpload.video_data := "%%% not base64 !";
                VideoUpload.location_lat := None;
                VideoUpload.location_lng := None;
                VideoUpload.phone_number := None |}
             alice "clip-3" 8000000 5 sample_db)
  = inr {| Uploaded.message := "Video uploaded successfully";
           Uploaded.video_id := "clip-3" |}.
Proof. reflexivity. Qed.

(** * The further statements at concrete requests *)

Lemma X1_witness :
  outcome (authenticate None 6000000 sample_db)
    = inl {| status_code := 403; detail := "Not authenticated";
             headers := [] |} ∧
  outcome (route_get_video "clip-1" None 6000000 sample_db)
    = inl {| status_code := 403; detail := "Not authenticated";
             headers := [] |} ∧
  db_after (route_get_video "clip-1" None 6000000 sample_db) = sample_db ∧
  outcome (authenticate (bearer alice_token) 6000000 sample_db) = inr alice ∧
  outcome (route_get_video "clip-1" (bearer alice_token) 6000000 sample_db)
    = outcome (get_video "clip-1" alice sample_db).
Proof.
  assert (H1 : outcome (authenticate None 6000000 sample_db)
               = inl {| status_code := 403; detail := "Not authenticated";
                        headers := [] |}) by reflexivity.
  assert (H2 : outcome (authenticate (bearer alice_token) 6000000 sample_db)
               = inr alice) by (vm_compute; reflexivity).
  destruct (X1_route_runs_only_when_authenticated (get_video "clip-1")
              None 6000000 sample_db) as [Hrej _].
  destruct (X1_route_runs_only_when_authenticated (get_video "clip-1")
              (bearer alice_token) 6000000 sample_db) as [_ Hok].
  destruct (Hrej _ H1) as (Hout & _ & Hdb & _).
  destruct (Hok _ H2) as (Hout' & _).
  split_and!; [exact H1|exact Hout|exact Hdb|exact H2|exact Hout'].
Defined.

Lemma X2_witness :
  valid_datetime 5000000 ∧
  valid_datetime (5000000 + timedelta_minutes 15) ∧
  valid_timedelta 60000000 ∧
  valid_datetime (5000000 + 60000000) ∧
  valid_datetime 65000000 ∧
  60000000 ≠ 0 ∧
  find_one (by_email "alice@example.com") (users sample_db) = Some alice ∧
  timegm 65000000 ≤ timegm (5000000 + 60000000) ∧
  outcome (get_current_user
             {| scheme := "Bearer";
                credentials :=
                  create_access_token
                    {| sub := Some "alice@example.com"; exp := Some 1 |}
                    (Some 60000000) 5000000 |} 65000000 sample_db)
    = inr alice.
Proof.
  assert (V1 : valid_datetime 5000000) by (unfold valid_datetime; lia).
  assert (V2 : valid_datetime (5000000 + timedelta_minutes 15))
    by (vm_compute; split; discriminate).
  assert (V3 : valid_timedelta 60000000) by (unfold valid_timedelta; lia).
  assert (V4 : valid_datetime (5000000 + 60000000))
    by (unfold valid_datetime; lia).
  assert (V5 : valid_datetime 65000000) by (unfold valid_datetime; lia).
  assert (H1 : 60000000 ≠ 0) by lia.
  assert (H2 : find_one (by_email "alice@example.com") (users sample_db)
               = Some alice) by (vm_compute; reflexivity).
  assert (H3 : timegm 65000000 ≤ timegm (5000000 + 60000000))
    by (vm_compute; discriminate).
  destruct (X2_create_access_token_lifetime
              {| sub := Some "alice@example.com"; exp := Some 1 |}
              5000000 "Bearer" sample_db V1 V2) as (_ & _ & _ & Hlive & _).
  destruct (Hlive 60000000 "alice@example.com" alice 65000000
              V3 V4 V5 H1 eq_refl H2) as [Hok _].
  split_and!;
    [exact V1|exact V2|exact V3|exact V4|exact V5|exact H1|exact H2|exact H3
    |exact (Hok H3)].
Defined.

Lemma X3_witness :
  outcome (login alice_login 5000000 sample_db)
    = inr {| access_token := alice_token; token_type := "bearer" |} ∧
  timegm 6000000
    ≤ timegm (5000000 + timedelta_minutes ACCESS_TOKEN_EXPIRE_MINUTES) ∧
  outcome (route_me (bearer alice_token) 6000000 sample_db)
    = inr {| UserInfo.id := "u-alice";
             UserInfo.email := "alice@example.com";
             UserInfo.phone := Some "+1-555-0123";
             UserInfo.created_at := 1000000 |}.
Proof.
  assert (H1 : outcome (login alice_login 5000000 sample_db)
               = inr {| access_token := alice_token; token_type := "bearer" |})
    by (vm_compute; reflexivity).
  assert (H2 : timegm 6000000
               ≤ timegm (5000000
                         + timedelta_minutes ACCESS_TOKEN_EXPIRE_MINUTES))
    by (vm_compute; discriminate).
  destruct (X3_me_after_login alice_login 5000000 _ 6000000 sample_db H1 H2)
    as (db_user & Hfind & Hout & _).
  vm_compute in Hfind. injection Hfind as <-.
  split_and!; [exact H1|exact H2|exact Hout].
Defined.


Lemma carol_db_reachable : reachable carol_db.
Proof. apply reachable_register, reachable_empty. Qed.

Lemma carol_clip_db_reachable : reachable carol_clip_db.
Proof.
  apply reachable_upload; [apply carol_db_reachable|].
  unfold fresh_video_id. by compute_done.
Qed.

Lemma X5_witness :
  reachable carol_db ∧
  NoDup (user_emails carol_db) ∧
  find_one (by_email "carol@example.com") (users carol_db) = Some carol.
Proof.
  assert (H1 : reachable carol_db) by exact carol_db_reachable.
  destruct (X5_reachable_emails_unique carol_db H1) as (Hnd & _ & Hfind).
  split_and!; [exact H1|exact Hnd|].
  apply (Hfind carol). vm_compute. left.
Defined.

Lemma X6_witness :
  reachable carol_clip_db ∧
  outcome (get_video "clip-9" carol carol_clip_db)
    = inr (new_record new_clip "u-carol" "clip-9" 8000000).
Proof.
  assert (H1 : reachable carol_clip_db) by exact carol_clip_db_reachable.
  destruct (X6_reachable_records_fetchable carol_clip_db H1) as [_ Hget].
  split; [exact H1|].
  apply (Hget (Build_Stored 6 (new_record new_clip "u-carol" "clip-9" 8000000))
           carol); [vm_compute; left|reflexivity].
Defined.

Lemma X7_witness :
  User.id (doc bob) ≠ User.id (doc alice) ∧
  outcome (get_user_videos alice
             (db_after (upload_video new_clip bob "clip-3" 8000000 5 sample_db)))
    = inr [summary_of alice_clip] ∧
  outcome (get_user_videos alice
             (db_after (delete_video "clip-1" bob sample_db)))
    = inr [summary_of alice_clip].
Proof.
  assert (H1 : User.id (doc bob) ≠ User.id (doc alice))
    by (vm_compute; discriminate).
  destruct (X7_listing_isolated alice sample_db) as (_ & Hupload & Hdelete).
  split_and!; [exact H1| |].
  - by rewrite (Hupload bob new_clip "clip-3" 8000000 5%N H1).
  - by rewrite (Hdelete bob "clip-1" H1).
Defined.

Lemma X8_witness :
  (length (owned_by (User.id (doc alice)) sample_db) < 1000)%nat ∧
  outcome (get_user_videos alice
             (db_after (upload_video new_clip alice "clip-3" 8000000 5
                          sample_db)))
    = inr [summary_of alice_clip;
           summary_of (Build_Stored 5
                         (new_record new_clip "u-alice" "clip-3" 8000000))] ∧
  (1000 ≤ length (owned_by (User.id (doc alice)) crowded_db))%nat ∧
  outcome (get_user_videos alice
             (db_after (upload_video new_clip alice "clip-3" 8000000 5
                          crowded_db)))
    = outcome (get_user_videos alice crowded_db).
Proof.
  assert (H1 : (length (owned_by (User.id (doc alice)) sample_db) < 1000)%nat)
    by (vm_compute; lia).
  assert (H2 : (1000 ≤ length (owned_by (User.id (doc alice)) crowded_db))%nat)
    by (vm_compute; lia).
  destruct (X8_upload_extends_listing new_clip alice "clip-3" 8000000 5
              sample_db) as (l & l' & Hl & Hl' & Hgrow & _).
  destruct (X8_upload_extends_listing new_clip alice "clip-3" 8000000 5
              crowded_db) as (k & k' & Hk & Hk' & _ & Hfull).
  destruct (Hfull H2) as [-> _]. specialize (Hgrow H1).
  injection Hl as <-.
  split_and!; [exact H1| |exact H2|by rewrite Hk, Hk'].
  rewrite Hl', Hgrow. reflexivity.
Defined.

Lemma X9_witness :
  outcome (get_video "clip-1" alice sample_db) = inr (doc alice_clip) ∧
  outcome (get_video "clip-1" alice
             (db_after (upload_video new_clip alice "clip-1" 8000000 5
                          sample_db)))
    = inr (doc alice_clip) ∧
  ("clip-2" ≠ "clip-1" ∨ User.id (doc bob) ≠ User.id (doc alice)) ∧
  outcome (get_video "clip-2" bob
             (db_after (upload_video new_clip alice "clip-1" 8000000 5
                          sample_db)))
    = outcome (get_video "clip-2" bob sample_db).
Proof.
  assert (H1 : outcome (get_video "clip-1" alice sample_db)
               = inr (doc alice_clip)) by reflexivity.
  assert (H2 : "clip-2" ≠ "clip-1" ∨ User.id (doc bob) ≠ User.id (doc alice))
    by (left; discriminate).
  destruct (X9_upload_keeps_earlier_records new_clip alice "clip-1" 8000000 5
              sample_db "clip-1" alice) as [Hkeep _].
  destruct (X9_upload_keeps_earlier_records new_clip alice "clip-1" 8000000 5
              sample_db "clip-2" bob) as [_ Hother].
  split_and!; [exact H1|exact (Hkeep _ H1)|exact H2|exact (Hother H2)].
Defined.

Lemma X10_witness :
  outcome (delete_video "clip-1" alice sample_db)
    = inr {| Deleted.message := "Video deleted successfully" |} ∧
  S (length (videos (db_after (delete_video "clip-1" alice sample_db))))
    = length (videos sample_db) ∧
  ("clip-2" ≠ "clip-1" ∨ User.id (doc bob) ≠ User.id (doc alice)) ∧
  outcome (get_video "clip-2" bob
             (db_after (delete_video "clip-1" alice sample_db)))
    = outcome (get_video "clip-2" bob sample_db) ∧
  outcome (delete_video "clip-2" alice sample_db) = inl not_found ∧
  db_after (delete_video "clip-2" alice sample_db) = sample_db.
Proof.
  assert (H1 : outcome (delete_video "clip-1" alice sample_db)
               = inr {| Deleted.message := "Video deleted successfully" |})
    by reflexivity.
  assert (H2 : "clip-2" ≠ "clip-1" ∨ User.id (doc bob) ≠ User.id (doc alice))
    by (left; discriminate).
  assert (H3 : outcome (delete_video "clip-2" alice sample_db) = inl not_found)
    by reflexivity.
  destruct (X10_delete_footprint "clip-1" alice sample_db)
    as (_ & _ & _ & Hlen & Hother).
  destruct (X10_delete_footprint "clip-2" alice sample_db)
    as (_ & _ & Hsame & _).
  split_and!;
    [exact H1|exact (Hlen _ H1)|exact H2|exact (Hother _ _ H2)|exact H3
    |exact (Hsame H3)].
Defined.

Lemma X11_witness :
  outcome (get_video "clip-1" alice sample_db) = inr (doc alice_clip) ∧
  outcome (delete_video "clip-1" alice sample_db)
    = inr {| Deleted.message := "Video deleted successfully" |} ∧
  outcome (get_video "clip-2" alice sample_db) = inl not_found ∧
  outcome (delete_video "clip-2" alice sample_db) = inl not_found.
Proof.
  assert (H1 : outcome (get_video "clip-1" alice sample_db)
               = inr (doc alice_clip)) by reflexivity.
  assert (H2 : outcome (get_video "clip-2" alice sample_db) = inl not_found)
    by reflexivity.
  destruct (X11_get_and_delete_agree "clip-1" alice sample_db) as [Hhit _].
  destruct (X11_get_and_delete_agree "clip-2" alice sample_db) as [_ Hmiss].
  destruct (Hhit _ H1) as (? & ? & ? & _ & _ & Hdel & _).
  split_and!; [exact H1|exact Hdel|exact H2|exact (proj1 Hmiss H2)].
Defined.

Lemma X12_witness :
  unique_video_ids sample_db ∧
  outcome (delete_video "clip-1" alice
             (db_after (delete_video "clip-1" alice sample_db)))
    = inl not_found.
Proof.
  assert (H1 : unique_video_ids sample_db) by exact sample_db_unique.
  destruct (X12_second_delete_not_found "clip-1" alice sample_db H1)
    as (Hout & _).
  split; [exact H1|exact Hout].
Defined.

Lemma X13_witness :
  outcome (get_user_videos alice sample_db) = inr [summary_of alice_clip] ∧
  summary_of alice_clip ∈ [summary_of alice_clip] ∧
  ∃ found,
    outcome (get_video "clip-1" alice sample_db) = inr found ∧
    VideoRecord.id found = "clip-1" ∧
    VideoRecord.user_id found = "u-alice".
Proof.
  assert (H1 : outcome (get_user_videos alice sample_db)
               = inr [summary_of alice_clip]) by reflexivity.
  assert (H2 : summary_of alice_clip ∈ [summary_of alice_clip]) by left.
  split_and!; [exact H1|exact H2|].
  exact (X13_listed_ids_fetchable alice sample_db _ _ H1 H2).
Defined.

Lemma X15_witness :
  (∀ u, u ∈ users sample_db →
        User.email (doc u) ≠ UserCreate.email carol_signup) ∧
  bcrypt_verify (UserCreate.password carol_signup)
    (bcrypt_hash "s1" (UserCreate.password carol_signup)) = true ∧
  fresh_video_id "clip-9" sample_db ∧
  (length (owned_by "u-carol" sample_db) < 1000)%nat ∧
  timegm 9500000
    ≤ timegm (9000000 + timedelta_minutes ACCESS_TOKEN_EXPIRE_MINUTES) ∧
  outcome (route_me (bearer (issued_token "carol@example.com" 9000000))
             9500000
             (db_after (register carol_signup "s1" "u-carol" 7000000 5
                          7000001 sample_db)))
    = inr {| UserInfo.id := "u-carol";
             UserInfo.email := "carol@example.com";
             UserInfo.phone := None;
             UserInfo.created_at := 7000000 |} ∧
  videos (db_after
            (delete_video "clip-9" carol
               (db_after
                  (upload_video new_clip carol "clip-9" 8000000 6
                     (db_after (register carol_signup "s1" "u-carol" 7000000
                                  5 7000001 sample_db))))))
    = videos sample_db.
Proof.
  assert (H1 : ∀ u, u ∈ users sample_db →
                    User.email (doc u) ≠ UserCreate.email carol_signup).
  { intros u Hu. vm_compute in Hu.
    apply elem_of_cons in Hu as [->|Hu]; [vm_compute; discriminate|].
    apply list_elem_of_singleton in Hu as ->. vm_compute; discriminate. }
  assert (H2 : bcrypt_verify (UserCreate.password carol_signup)
                 (bcrypt_hash "s1" (UserCreate.password carol_signup)) = true)
    by (vm_compute; reflexivity).
  assert (H3 : fresh_video_id "clip-9" sample_db)
    by (unfold fresh_video_id; by compute_done).
  assert (H4 : (length (owned_by "u-carol" sample_db) < 1000)%nat)
    by (vm_compute; lia).
  assert (H5 : timegm 9500000
               ≤ timegm (9000000
                         + timedelta_minutes ACCESS_TOKEN_EXPIRE_MINUTES))
    by (vm_compute; discriminate).
  destruct (X15_session_walkthrough carol_signup "s1" "u-carol" 7000000 5
              7000001 9000000 new_clip "clip-9" 8000000 6 sample_db
              H1 H2 H3 H4) as (_ & _ & Hback & Hsteps).
  destruct (Hsteps 9500000 H5) as (Hme & _).
  split_and!; [exact H1|exact H2|exact H3|exact H4|exact H5|exact Hme
              |exact Hback].
Defined.

Lemma X16_witness :
  sample_env = [ "# frontend settings" +:+ new_line; new_line;
                 "EXPO_PUBLIC_BACKEND_URL=http://old.example.com" +:+ new_line ]
               ++ backend_url_line :: [ "no assignment here" +:+ new_line ] ∧
  assignment backend_url_line
    = Some ("EXPO_PUBLIC_BACKEND_URL", "https://cam.example.com?x=1") ∧
  (∀ later, later ∈ [ "no assignment here" +:+ new_line ] →
            ∀ v, assignment later ≠ Some ("EXPO_PUBLIC_BACKEND_URL", v)) ∧
  load_env_file (Some sample_env) !! "EXPO_PUBLIC_BACKEND_URL"
    = Some "https://cam.example.com?x=1".
Proof.
  assert (H1 : sample_env
               = [ "# frontend settings" +:+ new_line; new_line;
                   "EXPO_PUBLIC_BACKEND_URL=http://old.example.com"
                   +:+ new_line ]
                 ++ backend_url_line :: [ "no assignment here" +:+ new_line ])
    by reflexivity.
  assert (H2 : assignment backend_url_line
               = Some ("EXPO_PUBLIC_BACKEND_URL",
                       "https://cam.example.com?x=1"))
    by (vm_compute; reflexivity).
  assert (H3 : ∀ later, later ∈ [ "no assignment here" +:+ new_line ] →
                 ∀ v, assignment later ≠ Some ("EXPO_PUBLIC_BACKEND_URL", v)).
  { intros later ->%list_elem_of_singleton v. vm_compute. discriminate. }
  destruct (X16_load_env_last_assignment_wins sample_env
              "EXPO_PUBLIC_BACKEND_URL") as [Hsome _].
  split_and!; [exact H1|exact H2|exact H3|].
  apply Hsome. eexists _, _, _. split_and!; [exact H1|exact H2|exact H3].
Defined.

Lemma X17_witness :
  load_env_file (Some sample_env) !! "EXPO_PUBLIC_BACKEND_URL"
    = Some "https://cam.example.com?x=1" ∧
  "="%char ∉ list_ascii_of_string "EXPO_PUBLIC_BACKEND_URL".
Proof.
  assert (H1 : load_env_file (Some sample_env) !! "EXPO_PUBLIC_BACKEND_URL"
               = Some "https://cam.example.com?x=1")
    by (vm_compute; reflexivity).
  destruct (X17_load_env_entries_shape sample_env _ _ H1) as (Hkey & _).
  split; [exact H1|exact Hkey].
Defined.

Lemma X18_witness :
  head (list_ascii_of_string
          (lstrip isspace ("# frontend settings" +:+ new_line)))
    = Some "#"%char ∧
  assignment ("# frontend settings" +:+ new_line) = None.
Proof.
  assert (H1 : head (list_ascii_of_string
                       (lstrip isspace ("# frontend settings" +:+ new_line)))
               = Some "#"%char) by reflexivity.
  destruct (X18_load_env_skips_blank_comment_and_plain_lines
              ("# frontend settings" +:+ new_line) (or_intror (or_introl H1)))
    as [Hnone _].
  split; [exact H1|exact Hnone].
Defined.

Lemma X19_witness :
  isquote double_quote = true ∧
  assignment backend_url_line
    = Some ("EXPO_PUBLIC_BACKEND_URL", "https://cam.example.com?x=1").
Proof.
  assert (H1 : isquote double_quote = true) by reflexivity.
  split; [exact H1|].
  apply (X19_quoted_assignment_read_back "EXPO_PUBLIC_BACKEND_URL"
           "https://cam.example.com?x=1" double_quote double_quote new_line).
  - by compute_done.
  - intros c [= <-]. split; [reflexivity|discriminate].
  - intros c [= <-]. reflexivity.
  - intros c Hc. vm_compute in Hc. injection Hc as <-. reflexivity.
  - exact H1.
  - exact H1.
  - intros c ->%list_elem_of_singleton. reflexivity.
Defined.

Lemma X20_witness :
  API_BASE_URL (load_env_file None) = "http://localhost:8001/api".
Proof. apply X20_api_base_url_default. by left. Defined.
